(** * micro-semantic-cache: the similarity-indexed cache engine

    A shallow embedding of [src/cache.ts] (class [SemanticCache]) and of
    [src/vector.ts] ([cosineSimilarity], [findKNearest], [normalize],
    [defaultEmbedding]), with the properties the specification states
    about them.

    Modelling conventions.
    - A JavaScript [number] that holds a vector component, a similarity or
      a threshold is a binary64 float ([PrimFloat.float]): [+], [-], [*],
      [/], [Math.sqrt], [<], [>=] and [===] are the IEEE 754 operations.
    - [Date.now()], timestamps, [ttl], [maxSize], [k], array lengths and
      the hit counters are integers ([Z]); one synchronous call reads the
      clock once, as its parameter [now].
    - A [Map<string, CacheEntry>] is an association list in insertion
      order: iteration order is observable ([evictOldest], [findKNearest]).
    - A method is a function from the cache to its result and the cache
      after the call; a [throw] (or a rejected promise) is [Thrown].
    - A key is a [string]; the cached values are of an arbitrary type [T]
      and [get] returns an [option T]: [Some v] for [return entry.value],
      [None] for [return null] (the code returns the value untagged).
    - [ttl] and [maxSize] are whole numbers, as [Date.now()] is: sums and
      comparisons of integers below 2^53 are exact in binary64. *)

From Stdlib Require Import ZArith List String Ascii Bool Lia Sorted Permutation.
From Stdlib Require Import Floats.
Import ListNotations.

Local Open Scope string_scope.
Local Open Scope Z_scope.

Set Implicit Arguments.
Set Warnings "-inexact-float".

(** ** JavaScript [Map] with string keys, in insertion order *)

Module JsMap.
Section JsMap.
Variable V : Type.

Definition t := list (string * V).

(** [Map.prototype.get] *)
Fixpoint get (k : string) (m : t) : option V :=
  match m with
  | [] => None
  | (k', v) :: m' => if String.eqb k k' then Some v else get k m'
  end.

(** [Map.prototype.has] *)
Definition has (k : string) (m : t) : bool :=
  match get k m with Some _ => true | None => false end.

(** [Map.prototype.set]: an existing key keeps its position, a new key
    goes last. *)
Fixpoint set (k : string) (v : V) (m : t) : t :=
  match m with
  | [] => [(k, v)]
  | (k', v') :: m' =>
      if String.eqb k k' then (k, v) :: m' else (k', v') :: set k v m'
  end.

(** [Map.prototype.delete]: the map without the key (the boolean result
    is [has] before the call). *)
Definition delete (k : string) (m : t) : t :=
  filter (fun p => negb (String.eqb k (fst p))) m.

(** [Map.prototype.size] *)
Definition size (m : t) : Z := Z.of_nat (List.length m).

(** [Map.prototype.values] *)
Definition values (m : t) : list V := map snd m.

(** [Map.prototype.keys] *)
Definition keys (m : t) : list string := map fst m.
End JsMap.
End JsMap.

(** ** Errors and results of calls *)

Inductive error :=
| DimensionMismatch (expected : Z) (got : Z)
    (* 'Embedding dimension mismatch: expected .., got ..' *)
| VectorsDimension
    (* 'Vectors must have the same dimension' *)
| InvalidArrayLength
    (* RangeError: 'Invalid array length' *)
| NotAFunction
    (* TypeError: '.. is not a function' *)
| EmbeddingProviderFailure.
    (* the configured embedFn threw or rejected *)

Inductive outcome (A : Type) :=
| Returned (a : A)
| Thrown (e : error).
Arguments Thrown {A} e.

(** ** [src/vector.ts] *)

Definition vector := list float.

Definition vlength (v : vector) : Z := Z.of_nat (List.length v).

(** The loop of [cosineSimilarity]: the three accumulators, left to right. *)
Fixpoint dot_loop (a b : vector) (acc : float * float * float)
  : float * float * float :=
  match a, b with
  | x :: a', y :: b' =>
      let '(dotProduct, magnitudeA, magnitudeB) := acc in
      dot_loop a' b'
        ((dotProduct + x * y)%float,
         (magnitudeA + x * x)%float,
         (magnitudeB + y * y)%float)
  | _, _ => acc
  end.

Definition cosineSimilarity (a b : vector) : outcome float :=
  if negb (vlength a =? vlength b) then Thrown VectorsDimension
  else
    let '(dotProduct, magnitudeA, magnitudeB) :=
      dot_loop a b (0%float, 0%float, 0%float) in
    let magnitude := (sqrt magnitudeA * sqrt magnitudeB)%float in
    if (magnitude =? 0)%float then Returned 0%float
    else Returned (dotProduct / magnitude)%float.

(** [Array.prototype.sort(comparefn)]: the sort is stable, [comparefn x y > 0]
    puts [y] first and a [NaN] result counts as [+0]. *)
Section ArraySort.
Variable A : Type.
Variable comparefn : A -> A -> float.

Fixpoint sort_insert (x : A) (l : list A) : list A :=
  match l with
  | [] => [x]
  | y :: l' =>
      if (0 <? comparefn x y)%float then y :: sort_insert x l' else x :: l
  end.

Definition sort (l : list A) : list A := fold_right sort_insert [] l.

(** [Array.prototype.slice(0, end)]: a negative [end] counts from the
    end of the array. *)
Definition slice0 (end_ : Z) (l : list A) : list A :=
  let len := Z.of_nat (List.length l) in
  let final := if end_ <? 0 then Z.max (len + end_) 0 else Z.min end_ len in
  firstn (Z.to_nat final) l.
End ArraySort.

Record CacheEntry (T : Type) := {
  key : string;
  value : T;
  embedding : vector;
  timestamp : Z;
  expiresAt : Z
}.

Record SimilarityResult (T : Type) := {
  res_key : string;
  res_value : T;
  similarity : float
}.

Section FindKNearest.
Variable T : Type.

(** The [for] loop of [findKNearest] over [entries.values()]. *)
Fixpoint scan (queryEmbedding : vector) (es : list (CacheEntry T))
    (threshold : float) (now : Z) : outcome (list (SimilarityResult T)) :=
  match es with
  | [] => Returned []
  | entry :: rest =>
      (* Skip expired entries *)
      if expiresAt entry <? now then scan queryEmbedding rest threshold now
      else
        match cosineSimilarity queryEmbedding (embedding entry) with
        | Thrown e => Thrown e
        | Returned sim =>
            match scan queryEmbedding rest threshold now with
            | Thrown e => Thrown e
            | Returned results =>
                Returned
                  (if (threshold <=? sim)%float
                   then {| res_key := key entry;
                           res_value := value entry;
                           similarity := sim |} :: results
                   else results)
            end
        end
  end.

(** [(a, b) => b.similarity - a.similarity] *)
Definition by_similarity_desc (a b : SimilarityResult T) : float :=
  (similarity b - similarity a)%float.

Definition findKNearest (queryEmbedding : vector)
    (entries : JsMap.t (CacheEntry T)) (k : Z) (threshold : float)
    (now : Z) : outcome (list (SimilarityResult T)) :=
  match scan queryEmbedding (JsMap.values entries) threshold now with
  | Thrown e => Thrown e
  | Returned results =>
      Returned (slice0 k (sort by_similarity_desc results))
  end.
End FindKNearest.

(** [normalize] *)
Definition normalize (v : vector) : vector :=
  let magnitude :=
    sqrt (fold_left (fun sum val => (sum + val * val)%float) v 0%float) in
  if (magnitude =? 0)%float then v
  else map (fun val => (val / magnitude)%float) v.

(** An integer as a [number] (exact below 2^53). *)
Definition float_of_Z (z : Z) : float :=
  SF2Prim (binary_normalize prec emax z 0 false).

(** [embedding[idx] += d] at an index inside the array. *)
Fixpoint add_at (idx : nat) (d : float) (v : vector) : vector :=
  match v, idx with
  | [], _ => []
  | x :: v', O => (x + d)%float :: v'
  | x :: v', S idx' => x :: add_at idx' d v'
  end.

(** [defaultEmbedding]. [Math.sin] and [String.prototype.toLowerCase] are
    the platform's. *)
Section DefaultEmbedding.
Variable Math_sin : float -> float.
Variable toLowerCase : string -> string.

(** The [for] loop over the characters of [normalized], from index [i]. *)
Fixpoint embed_loop (dimension : Z) (chars : list ascii) (i : Z)
    (embedding : vector) : vector :=
  match chars with
  | [] => embedding
  | c :: rest =>
      let charCode := Z.of_N (N_of_ascii c) in
      let d := (Math_sin (float_of_Z (i * charCode)) * 0.1)%float in
      embed_loop dimension rest (i + 1)
        (if dimension =? 0
         then embedding (* idx is NaN: no element is written *)
         else add_at (Z.to_nat (charCode mod dimension)) d embedding)
  end.

(** [new Array(dimension)] throws a RangeError unless [dimension] is an
    array length. *)
Definition defaultEmbedding (text : string) (dimension : Z)
  : outcome vector :=
  if (dimension <? 0) || (2 ^ 32 <=? dimension) then Thrown InvalidArrayLength
  else
    let embedding := repeat 0%float (Z.to_nat dimension) in
    let normalized := toLowerCase text in
    Returned
      (normalize
         (embed_loop dimension (list_ascii_of_string normalized) 0 embedding)).
End DefaultEmbedding.

(** ** [src/types.ts] *)

(** [CacheConfig]: every option may be left out. *)
Record CacheConfig := {
  cfg_maxSize : option Z;
  cfg_ttl : option Z;
  cfg_similarityThreshold : option float;
  cfg_embeddingDimension : option Z;
  cfg_embedFn : option (string -> outcome vector)
}.

(** [Required<CacheConfig>] *)
Record RequiredConfig := {
  maxSize : Z;
  ttl : Z;
  similarityThreshold : float;
  embeddingDimension : Z;
  embedFn : string -> outcome vector
}.

Record CacheStats := {
  hits : Z;
  misses : Z;
  similarHits : Z;
  size : Z;
  hitRate : float
}.

(** ** [src/cache.ts]: class [SemanticCache] *)

(** The private counters [{ hits, misses, similarHits }]. *)
Record Counters := {
  c_hits : Z;
  c_misses : Z;
  c_similarHits : Z
}.

Record SemanticCache (T : Type) := {
  entries : JsMap.t (CacheEntry T);
  config : RequiredConfig;
  counters : Counters
}.

Definition orElse {A : Type} (o : option A) (d : A) : A :=
  match o with Some a => a | None => d end.

Section Constructor.
Variable Math_sin : float -> float.
Variable toLowerCase : string -> string.
Variable T : Type.

Definition opt {A : Type} (config : option CacheConfig)
    (f : CacheConfig -> option A) : option A :=
  match config with Some c => f c | None => None end.

(** [constructor(config?)] *)
Definition new_SemanticCache (config : option CacheConfig)
  : SemanticCache T :=
  {| entries := [];
     counters := {| c_hits := 0; c_misses := 0; c_similarHits := 0 |};
     config :=
       {| maxSize := orElse (opt config cfg_maxSize) 1000;
          ttl := orElse (opt config cfg_ttl) 3600000;
          similarityThreshold :=
            orElse (opt config cfg_similarityThreshold) 0.85%float;
          embeddingDimension := orElse (opt config cfg_embeddingDimension) 384;
          embedFn :=
            orElse (opt config cfg_embedFn)
              (fun text =>
                 defaultEmbedding Math_sin toLowerCase text
                   (orElse (opt config cfg_embeddingDimension) 384)) |} |}.
End Constructor.

Section Methods.
Variable T : Type.

Definition with_entries (c : SemanticCache T) (m : JsMap.t (CacheEntry T))
  : SemanticCache T :=
  {| entries := m; config := config c; counters := counters c |}.

Definition with_counters (c : SemanticCache T) (s : Counters)
  : SemanticCache T :=
  {| entries := entries c; config := config c; counters := s |}.

Definition miss (s : Counters) : Counters :=
  {| c_hits := c_hits s; c_misses := c_misses s + 1;
     c_similarHits := c_similarHits s |}.

Definition hit (s : Counters) : Counters :=
  {| c_hits := c_hits s + 1; c_misses := c_misses s;
     c_similarHits := c_similarHits s |}.

(** [get(key)]: [Some v] is [return entry.value], [None] is
    [return null]. The code returns the value untagged: when the cached
    value is itself [null] a caller cannot tell the two apart. *)
Definition get (key : string) (now : Z) (c : SemanticCache T)
  : option T * SemanticCache T :=
  match JsMap.get key (entries c) with
  | None => (None, with_counters c (miss (counters c)))
  | Some entry =>
      if expiresAt entry <? now then
        (None,
         with_counters (with_entries c (JsMap.delete key (entries c)))
           (miss (counters c)))
      else (Some (value entry), with_counters c (hit (counters c)))
  end.

(** The loop of [evictOldest]; [oldestTimestamp = None] is [Infinity]. *)
Fixpoint oldest_loop (es : JsMap.t (CacheEntry T))
    (oldestKey : option string) (oldestTimestamp : option Z)
  : option string :=
  match es with
  | [] => oldestKey
  | (k, entry) :: rest =>
      if match oldestTimestamp with
         | None => true
         | Some t => timestamp entry <? t
         end
      then oldest_loop rest (Some k) (Some (timestamp entry))
      else oldest_loop rest oldestKey oldestTimestamp
  end.

(** [if (oldestKey)]: [null] and the empty string are falsy. *)
Definition truthy (oldestKey : option string) : bool :=
  match oldestKey with
  | None => false
  | Some k => negb (String.eqb k "")
  end.

(** [evictOldest()] *)
Definition evictOldest (c : SemanticCache T) : SemanticCache T :=
  let oldestKey := oldest_loop (entries c) None None in
  if truthy oldestKey then
    match oldestKey with
    | Some k => with_entries c (JsMap.delete k (entries c))
    | None => c
    end
  else c.

(** [set(key, value, embedding?)] *)
Definition set (key : string) (value : T) (embedding : option vector)
    (now : Z) (c : SemanticCache T) : outcome unit * SemanticCache T :=
  let generated :=
    match embedding with
    | Some embedding =>
        if negb (vlength embedding =? embeddingDimension (config c))
        then Thrown (DimensionMismatch (embeddingDimension (config c))
                       (vlength embedding))
        else Returned embedding
    | None => embedFn (config c) key
    end in
  match generated with
  | Thrown e => (Thrown e, c)
  | Returned embeddingVector =>
      let entry :=
        {| key := key;
           value := value;
           embedding := embeddingVector;
           timestamp := now;
           expiresAt := now + ttl (config c) |} in
      let c1 :=
        if (maxSize (config c) <=? JsMap.size (entries c))
           && negb (JsMap.has key (entries c))
        then evictOldest c else c in
      (Returned tt, with_entries c1 (JsMap.set key entry (entries c1)))
  end.

(** [getSimilar(query, k = 5, threshold?)] *)
Definition getSimilar (query : string + vector) (k : option Z)
    (threshold : option float) (now : Z) (c : SemanticCache T)
  : outcome (list (SimilarityResult T)) * SemanticCache T :=
  let generated :=
    match query with
    | inl text => embedFn (config c) text
    | inr v => Returned v
    end in
  match generated with
  | Thrown e => (Thrown e, c)
  | Returned queryEmbedding =>
      let threshold' := orElse threshold (similarityThreshold (config c)) in
      match
        findKNearest queryEmbedding (entries c) (orElse k 5) threshold' now
      with
      | Thrown e => (Thrown e, c)
      | Returned results =>
          (Returned results,
           with_counters c
             {| c_hits := c_hits (counters c);
                c_misses := c_misses (counters c);
                c_similarHits :=
                  c_similarHits (counters c)
                  + Z.of_nat (List.length results) |})
      end
  end.

(** [has(key)] *)
Definition has (key : string) (now : Z) (c : SemanticCache T)
  : bool * SemanticCache T :=
  match JsMap.get key (entries c) with
  | None => (false, c)
  | Some entry =>
      if expiresAt entry <? now
      then (false, with_entries c (JsMap.delete key (entries c)))
      else (true, c)
  end.

(** [delete(key)] *)
Definition delete (key : string) (c : SemanticCache T)
  : bool * SemanticCache T :=
  (JsMap.has key (entries c),
   with_entries c (JsMap.delete key (entries c))).

(** [clear()] *)
Definition clear (c : SemanticCache T) : SemanticCache T :=
  {| entries := [];
     config := config c;
     counters := {| c_hits := 0; c_misses := 0; c_similarHits := 0 |} |}.

(** The body of the method [stats()]: the snapshot it computes from the
    counters and the store. A call [cache.stats()] does not reach it, see
    [call_stats] below. *)
Definition stats (c : SemanticCache T) : CacheStats :=
  let totalRequests := c_hits (counters c) + c_misses (counters c) in
  let hitRate :=
    if 0 <? totalRequests
    then (float_of_Z (c_hits (counters c)) / float_of_Z totalRequests)%float
    else 0%float in
  {| hits := c_hits (counters c);
     misses := c_misses (counters c);
     similarHits := c_similarHits (counters c);
     size := JsMap.size (entries c);
     hitRate := hitRate |}.

(** What the member access [cache.stats] finds. The class declares the
    field [stats] (the counters, assigned by the constructor and again by
    [clear]) and the method [stats()] under one name; the own property of
    the instance comes before the method of the class. *)
Inductive stats_member :=
| OwnCounters (s : Counters)
| ClassMethod (body : SemanticCache T -> CacheStats).

Definition member_stats (c : SemanticCache T) : stats_member :=
  OwnCounters (counters c).

(** The call [cache.stats()] as a caller writes it: calling a value that
    is not a function throws a TypeError. [stats] above is the body the
    method would run. *)
Definition call_stats (c : SemanticCache T) : outcome CacheStats :=
  match member_stats c with
  | ClassMethod body => Returned (body c)
  | OwnCounters _ => Thrown NotAFunction
  end.
End Methods.

(** ** Store invariant and reachable states *)

Section Invariants.
Variable T : Type.

(** [entry.expiresAt < Date.now()], the test of all three read paths. *)
Definition is_expired (now : Z) (entry : CacheEntry T) : bool :=
  expiresAt entry <? now.

(** What a [Map] filled by [set] guarantees: one slot per key, and every
    entry stored under its own [key]. *)
Definition wf_entries (m : JsMap.t (CacheEntry T)) : Prop :=
  NoDup (JsMap.keys m) /\ Forall (fun p => key (snd p) = fst p) m.

(** A cache right after construction with the resolved configuration. *)
Definition fresh (cfg : RequiredConfig) : SemanticCache T :=
  {| entries := [];
     config := cfg;
     counters := {| c_hits := 0; c_misses := 0; c_similarHits := 0 |} |}.

(** The public operations, as calls. *)
Inductive call :=
| CallGet (key : string)
| CallSet (key : string) (value : T) (embedding : option vector)
| CallGetSimilar (query : string + vector) (k : option Z)
    (threshold : option float)
| CallHas (key : string)
| CallDelete (key : string)
| CallClear.

(** The cache after a call made at time [now]. *)
Definition after (op : call) (now : Z) (c : SemanticCache T)
  : SemanticCache T :=
  match op with
  | CallGet k => snd (get k now c)
  | CallSet k v e => snd (set k v e now c)
  | CallGetSimilar q k t => snd (getSimilar q k t now c)
  | CallHas k => snd (has k now c)
  | CallDelete k => snd (delete k c)
  | CallClear => clear c
  end.

(** The states a cache constructed with [cfg] can be in. *)
Inductive reachable (cfg : RequiredConfig) : SemanticCache T -> Prop :=
| reachable_fresh : reachable cfg (fresh cfg)
| reachable_after : forall c op now,
    reachable cfg c -> reachable cfg (after op now c).

(** A run of [set] calls, one per key, at the given times, without a
    supplied vector. *)
Fixpoint set_all (kvs : list (string * T * Z)) (c : SemanticCache T)
  : SemanticCache T :=
  match kvs with
  | [] => c
  | (k, v, now) :: rest => set_all rest (snd (set k v None now c))
  end.

(** Every stored vector has the configured length. *)
Definition dimension_ok (c : SemanticCache T) : Prop :=
  Forall (fun p => vlength (embedding (snd p)) = embeddingDimension (config c))
    (entries c).

(** The results are in descending order of similarity. *)
Definition descending (rs : list (SimilarityResult T)) : Prop :=
  StronglySorted
    (fun a b => (similarity b <=? similarity a)%float = true) rs.

(** [(k, e)] is the oldest entry of the store: no entry has a smaller
    [timestamp], and among those with the same [timestamp] it is the first
    in insertion order. *)
Definition oldest_at (m : JsMap.t (CacheEntry T)) (k : string)
    (e : CacheEntry T) : Prop :=
  exists before behind,
    m = (before ++ (k, e) :: behind)%list
    /\ Forall (fun p => timestamp e < timestamp (snd p)) before
    /\ Forall (fun p => timestamp e <= timestamp (snd p)) behind.

(** Results that passed the threshold test; none of them is [NaN]. *)
Definition above (th : float) (rs : list (SimilarityResult T)) : Prop :=
  Forall (fun r => (th <=? similarity r)%float = true) rs.

(** The live entries of the store that qualify for a query. *)
Definition qualifies (queryEmbedding : vector) (threshold : float) (now : Z)
    (entry : CacheEntry T) (sim : float) : Prop :=
  is_expired now entry = false
  /\ cosineSimilarity queryEmbedding (embedding entry) = Returned sim
  /\ (threshold <=? sim)%float = true.

(** The contract of an embedding provider: vectors of the configured length. *)
Definition embedFn_respects_dimension (cfg : RequiredConfig) : Prop :=
  forall text vec,
    embedFn cfg text = Returned vec -> vlength vec = embeddingDimension cfg.

(** The query vector [getSimilar] searches with. *)
Definition query_vector (c : SemanticCache T) (query : string + vector)
  : outcome vector :=
  match query with
  | inl text => embedFn (config c) text
  | inr v => Returned v
  end.
End Invariants.

(** ** The sign of a binary64 value

    [has_sign s f]: [f] is a nonzero number (finite or infinite) of sign
    [s]; used to relate the comparator [b - a] to the order of [a], [b]. *)
Definition has_sign (s : bool) (f : spec_float) : Prop :=
  match f with
  | S754_finite s' _ _ | S754_infinity s' => s' = s
  | _ => False
  end.

(** ** Concrete caches used by the examples below *)

Module Examples.
(** A one-dimensional embedding that maps every text to [[1]]. *)
Definition unit_embedFn (text : string) : outcome vector :=
  Returned [1%float].

(** An embedding function that ignores the configured dimension. *)
Definition short_embedFn (text : string) : outcome vector :=
  Returned [1%float].

Definition cfg (n : Z) : RequiredConfig :=
  {| maxSize := n;
     ttl := 100;
     similarityThreshold := 0%float;
     embeddingDimension := 1;
     embedFn := unit_embedFn |}.

Definition cfg3 : RequiredConfig :=
  {| maxSize := 10;
     ttl := 100;
     similarityThreshold := 0%float;
     embeddingDimension := 3;
     embedFn := short_embedFn |}.

(** [maxSize = 2]; [set('a','va')] at 1 and [set('b','vb')] at 2. *)
Definition two : SemanticCache string :=
  set_all [("a", "va", 1); ("b", "vb", 2)] (fresh string (cfg 2)).

(** [maxSize = 2]; the keys [''], ['a'], ['b'] are set at times 1, 2, 3. *)
Definition empty_key_first : SemanticCache string :=
  set_all [("", "v0", 1); ("a", "va", 2); ("b", "vb", 3)]
    (fresh string (cfg 2)).

(** The same run with the key ['x'] in place of ['']. *)
Definition x_key_first : SemanticCache string :=
  set_all [("x", "v0", 1); ("a", "va", 2); ("b", "vb", 3)]
    (fresh string (cfg 2)).

(** [embeddingDimension = 3] with [short_embedFn]; [set('a','va')] at 1. *)
Definition short : SemanticCache string :=
  set_all [("a", "va", 1)] (fresh string cfg3).

(** [maxSize = 3]; [key1] .. [key4] are set at times 1 .. 4. *)
Definition four_keys : SemanticCache string :=
  set_all [("key1", "value1", 1); ("key2", "value2", 2);
           ("key3", "value3", 3); ("key4", "value4", 4)]
    (fresh string (cfg 3)).

(** [set('q', 'answer')] at time 1 in a fresh cache. *)
Definition asked : SemanticCache string :=
  set_all [("q", "answer", 1)] (fresh string (cfg 3)).

(** Two dimensions; ['y'], ['d'], ['x'] are set at times 1, 2, 3 with the
    supplied vectors [[0,1]], [[1,1]], [[1,0]]. *)
Definition cfg2 : RequiredConfig :=
  {| maxSize := 10;
     ttl := 100;
     similarityThreshold := 0.5%float;
     embeddingDimension := 2;
     embedFn := fun _ => Returned [1%float; 0%float] |}.

Definition plane : SemanticCache string :=
  snd (set "x" "vx" (Some [1%float; 0%float]) 3
    (snd (set "d" "vd" (Some [1%float; 1%float]) 2
      (snd (set "y" "vy" (Some [0%float; 1%float]) 1
        (fresh string cfg2)))))).

(** The entry of ['a'] in [two]; it expires at 101. *)
Definition entry_a : CacheEntry string :=
  {| key := "a"; value := "va"; embedding := [1%float];
     timestamp := 1; expiresAt := 101 |}.
End Examples.

(** ** The storage backend: class [InMemoryBackend]

    The backend is its private [store], a [Map]; [get] returns
    [undefined] ([None]) for a key that is not stored. *)

Module InMemoryBackend.
Section InMemoryBackend.
Variable V : Type.

Definition t := JsMap.t V.

(** [constructor()], [createInMemoryBackend()] *)
Definition create : t := [].

Definition get (key : string) (b : t) : option V := JsMap.get key b.

Definition set (key : string) (value : V) (b : t) : t := JsMap.set key value b.

Definition has (key : string) (b : t) : bool := JsMap.has key b.

Definition delete (key : string) (b : t) : bool * t :=
  (JsMap.has key b, JsMap.delete key b).

Definition clear (b : t) : t := [].

Definition size (b : t) : Z := JsMap.size b.

Definition keys (b : t) : list string := JsMap.keys b.

Definition values (b : t) : list V := JsMap.values b.

Definition entries (b : t) : list (string * V) := b.

(** The writing operations, as calls. *)
Inductive write :=
| Set_ (key : string) (value : V)
| Delete (key : string)
| Clear.

Definition apply (w : write) (b : t) : t :=
  match w with
  | Set_ k v => set k v b
  | Delete k => snd (delete k b)
  | Clear => clear b
  end.

(** The backend after a sequence of writes. *)
Definition replay (ws : list write) (b : t) : t :=
  fold_left (fun b w => apply w b) ws b.
End InMemoryBackend.
End InMemoryBackend.

(** ** Runs of calls *)

Section Runs.
Variable T : Type.

(** The cache after a sequence of calls, each made at its own time. *)
Fixpoint run (ops : list (call T * Z)) (c : SemanticCache T)
  : SemanticCache T :=
  match ops with
  | [] => c
  | (op, now) :: rest => run rest (after op now c)
  end.


(** A call that does not [set] the empty string as a key. *)
Definition sets_nonempty_key (op : call T) : Prop :=
  match op with
  | CallSet k _ _ => k <> ""
  | _ => True
  end.
End Runs.

(** ** Further examples *)

Module MoreExamples.
(** [maxSize = 2]; a run of calls over three keys with reads in between. *)
Definition busy : list (call string * Z) :=
  [ (CallSet "a" "va" None, 1);
    (CallGet string "a", 2);
    (CallSet "b" "vb" None, 3);
    (CallGet string "zz", 4);
    (CallSet "c" "vc" None, 5);
    (CallClear string, 6);
    (CallGet string "a", 7);
    (CallSet "d" "vd" None, 8);
    (CallGet string "d", 9) ].

(** [embeddingDimension = 1], an embedding function that always fails. *)
Definition failing_cfg : RequiredConfig :=
  {| maxSize := 10;
     ttl := 100;
     similarityThreshold := 0%float;
     embeddingDimension := 1;
     embedFn := fun _ => Thrown EmbeddingProviderFailure |}.

Definition failing : SemanticCache string :=
  snd (set "a" "va" (Some [1%float]) 1 (fresh string failing_cfg)).

(** Stand-ins for [Math.sin] and [toLowerCase], to run the default
    embedding: the identity on numbers and on texts. *)
Definition sin_stand_in (x : float) : float := x.

Definition lower_stand_in (text : string) : string := text.

(** A cache built by the constructor with no configuration. *)
Definition by_default : SemanticCache string :=
  new_SemanticCache sin_stand_in lower_stand_in string None.

(** A cache configured with a negative [ttl]. *)
Definition hasty : SemanticCache string :=
  fresh string
    {| maxSize := 10;
       ttl := -1;
       similarityThreshold := 0%float;
       embeddingDimension := 1;
       embedFn := Examples.unit_embedFn |}.

(** A backend with two keys. *)
Definition backend : InMemoryBackend.t string :=
  InMemoryBackend.replay
    [InMemoryBackend.Set_ "a" "va"; InMemoryBackend.Set_ "b" "vb";
     InMemoryBackend.Set_ "a" "va2"]
    (InMemoryBackend.create string).
End MoreExamples.

(** * Properties *)

(** ** The [Map] model *)

Module JsMapFacts.
Section JsMapFacts.
Variable V : Type.
Implicit Types (m : JsMap.t V) (k : string) (v : V).

Lemma get_set_same k v m : JsMap.get k (JsMap.set k v m) = Some v.
Proof.
  induction m as [|[k' v'] m IH]; simpl.
  - now rewrite String.eqb_refl.
  - destruct (String.eqb k k') eqn:E; simpl.
    + now rewrite String.eqb_refl.
    + now rewrite E.
Qed.

Lemma get_set_other k k' v m :
  k' <> k -> JsMap.get k' (JsMap.set k v m) = JsMap.get k' m.
Proof.
  intros Hne. induction m as [|[k0 v0] m IH]; simpl.
  - apply String.eqb_neq in Hne. now rewrite Hne.
  - destruct (String.eqb k k0) eqn:E; simpl.
    + apply String.eqb_eq in E. subst k0.
      apply String.eqb_neq in Hne. now rewrite Hne.
    + now rewrite IH.
Qed.

Lemma keys_set_present k v m :
  JsMap.has k m = true -> JsMap.keys (JsMap.set k v m) = JsMap.keys m.
Proof.
  unfold JsMap.has, JsMap.keys.
  induction m as [|[k' v'] m IH]; simpl; [discriminate|].
  destruct (String.eqb k k') eqn:E; simpl; intros H.
  - apply String.eqb_eq in E. now subst.
  - now rewrite IH.
Qed.

Lemma size_set_present k v m :
  JsMap.has k m = true -> JsMap.size (JsMap.set k v m) = JsMap.size m.
Proof.
  intros H. apply keys_set_present with (v := v) in H.
  unfold JsMap.size, JsMap.keys in *.
  apply (f_equal (@List.length string)) in H.
  rewrite !length_map in H. now rewrite H.
Qed.

Lemma size_set_absent k v m :
  JsMap.has k m = false -> JsMap.size (JsMap.set k v m) = JsMap.size m + 1.
Proof.
  unfold JsMap.has, JsMap.size. intros H.
  enough (List.length (JsMap.set k v m) = S (List.length m)) as -> by lia.
  induction m as [|[k' v'] m IH]; simpl in *; [reflexivity|].
  destruct (String.eqb k k') eqn:E; simpl; [discriminate|].
  f_equal. now apply IH.
Qed.

Lemma get_delete_same k m : JsMap.get k (JsMap.delete k m) = None.
Proof.
  unfold JsMap.delete.
  induction m as [|[k' v'] m IH]; simpl; [reflexivity|].
  destruct (String.eqb k k') eqn:E; simpl; [assumption|].
  now rewrite E.
Qed.

Lemma get_delete_other k k' m :
  k' <> k -> JsMap.get k' (JsMap.delete k m) = JsMap.get k' m.
Proof.
  intros Hne. unfold JsMap.delete.
  induction m as [|[k0 v0] m IH]; simpl; [reflexivity|].
  destruct (String.eqb k k0) eqn:E; simpl.
  - apply String.eqb_eq in E. subst k0.
    apply String.eqb_neq in Hne. now rewrite Hne.
  - now rewrite IH.
Qed.

Lemma get_In k v m : JsMap.get k m = Some v -> In (k, v) m.
Proof.
  induction m as [|[k' v'] m IH]; simpl; [discriminate|].
  destruct (String.eqb k k') eqn:E.
  - apply String.eqb_eq in E. intros [= ->]. subst. now left.
  - intros H. right. now apply IH.
Qed.

Lemma get_None_keys k m : JsMap.get k m = None -> ~ In k (JsMap.keys m).
Proof.
  unfold JsMap.keys.
  induction m as [|[k' v'] m IH]; simpl; [tauto|].
  destruct (String.eqb k k') eqn:E; [discriminate|].
  apply String.eqb_neq in E. intros H [Hk|Hk]; [congruence|].
  now apply IH.
Qed.

Lemma In_get k v m :
  NoDup (JsMap.keys m) -> In (k, v) m -> JsMap.get k m = Some v.
Proof.
  unfold JsMap.keys.
  induction m as [|[k' v'] m IH]; simpl; [tauto|].
  intros Hnd [Hin|Hin].
  - injection Hin as -> ->. now rewrite String.eqb_refl.
  - inversion Hnd as [|? ? Hnotin Hnd']; subst.
    destruct (String.eqb k k') eqn:E.
    + apply String.eqb_eq in E. subst k'.
      exfalso. apply Hnotin. apply (in_map fst) in Hin. exact Hin.
    + now apply IH.
Qed.

Lemma delete_absent k m :
  ~ In k (JsMap.keys m) -> JsMap.delete k m = m.
Proof.
  unfold JsMap.delete, JsMap.keys.
  induction m as [|[k' v'] m IH]; simpl; [reflexivity|].
  intros H. destruct (String.eqb k k') eqn:E; simpl.
  - apply String.eqb_eq in E. subst k'. tauto.
  - rewrite IH; tauto.
Qed.

Lemma length_delete k m :
  NoDup (JsMap.keys m) -> JsMap.has k m = true ->
  S (List.length (JsMap.delete k m)) = List.length m.
Proof.
  unfold JsMap.has.
  induction m as [|[k' v'] m IH]; simpl; [discriminate|].
  intros Hnd. inversion Hnd as [|? ? Hnotin Hnd']; subst.
  destruct (String.eqb k k') eqn:E; simpl.
  - intros _. apply String.eqb_eq in E. subst k'.
    fold (JsMap.delete k m). now rewrite delete_absent by exact Hnotin.
  - intros H. f_equal. now apply IH.
Qed.

Lemma size_delete k m :
  NoDup (JsMap.keys m) -> JsMap.has k m = true ->
  JsMap.size (JsMap.delete k m) = JsMap.size m - 1.
Proof.
  intros Hnd H. unfold JsMap.size.
  rewrite <- (@length_delete k m Hnd H). lia.
Qed.

Lemma keys_delete_incl k k' m :
  In k' (JsMap.keys (JsMap.delete k m)) -> In k' (JsMap.keys m).
Proof.
  unfold JsMap.keys, JsMap.delete. intros H.
  apply in_map_iff in H as [p [Hp Hin]].
  apply filter_In in Hin as [Hin _].
  apply in_map_iff. now exists p.
Qed.

Lemma NoDup_delete k m :
  NoDup (JsMap.keys m) -> NoDup (JsMap.keys (JsMap.delete k m)).
Proof.
  unfold JsMap.keys, JsMap.delete.
  induction m as [|[k' v'] m IH]; simpl; [auto|].
  intros Hnd. inversion Hnd as [|? ? Hnotin Hnd']; subst.
  destruct (String.eqb k k'); simpl; [now apply IH|].
  constructor; [|now apply IH].
  intros H. apply Hnotin. now apply (keys_delete_incl k).
Qed.

Lemma keys_set_absent k v m :
  JsMap.has k m = false -> JsMap.keys (JsMap.set k v m) = (JsMap.keys m ++ [k])%list.
Proof.
  unfold JsMap.has, JsMap.keys.
  induction m as [|[k' v'] m IH]; simpl; [reflexivity|].
  destruct (String.eqb k k') eqn:E; simpl; [discriminate|].
  intros H. now rewrite IH.
Qed.

Lemma NoDup_set k v m :
  NoDup (JsMap.keys m) -> NoDup (JsMap.keys (JsMap.set k v m)).
Proof.
  intros Hnd. destruct (JsMap.has k m) eqn:E.
  - now rewrite keys_set_present.
  - rewrite keys_set_absent by exact E.
    apply NoDup_app; [exact Hnd | repeat constructor; simpl; tauto |].
    intros x Hx [Hk|[]]. subst x. unfold JsMap.has in E.
    destruct (JsMap.get k m) eqn:G; [discriminate|].
    now apply get_None_keys in G.
Qed.

Lemma In_set k v m p :
  In p (JsMap.set k v m) -> p = (k, v) \/ In p m.
Proof.
  induction m as [|[k' v'] m IH]; simpl.
  - intros [<-|[]]. now left.
  - destruct (String.eqb k k'); simpl.
    + intros [<-|H]; [now left | right; now right].
    + intros [<-|H]; [right; now left|].
      destruct (IH H); [now left | right; now right].
Qed.

Lemma In_delete k m p : In p (JsMap.delete k m) -> In p m.
Proof. unfold JsMap.delete. intros H. now apply filter_In in H. Qed.
End JsMapFacts.
End JsMapFacts.

(** ** Exact-match operations *)

Section ExactMatch.
Variable T : Type.
Implicit Types (c : SemanticCache T) (k : string) (v : T).

Lemma config_set k v emb now c :
  config (snd (set k v emb now c)) = config c.
Proof.
  unfold set.
  destruct (match emb with Some _ => _ | None => _ end); simpl;
    [|reflexivity].
  destruct (_ && _); [|reflexivity].
  unfold evictOldest. destruct (truthy _); [|reflexivity].
  now destruct (oldest_loop _ _ _).
Qed.

(** A [set] that returns has stored its entry under [k]. *)
Lemma get_entry_after_set k v emb now c :
  fst (set k v emb now c) = Returned tt ->
  exists vec,
    JsMap.get k (entries (snd (set k v emb now c)))
    = Some {| key := k; value := v; embedding := vec;
              timestamp := now; expiresAt := now + ttl (config c) |}.
Proof.
  unfold set.
  destruct (match emb with Some _ => _ | None => _ end) as [vec|e]; simpl;
    [|discriminate].
  intros _. exists vec. apply JsMapFacts.get_set_same.
Qed.

Lemma get_after_set k v emb t0 t1 c :
  fst (set k v emb t0 c) = Returned tt ->
  t1 <= t0 + ttl (config c) ->
  fst (get k t1 (snd (set k v emb t0 c))) = Some v.
Proof.
  intros Hset Ht. destruct (get_entry_after_set _ _ _ _ _ Hset) as [vec G].
  unfold get. rewrite G. simpl.
  replace (t0 + ttl (config c) <? t1) with false; [reflexivity|].
  symmetry. apply Z.ltb_ge. exact Ht.
Qed.

(** C1. In a cache whose ttl is positive, [set(k, v)] followed by
    [get(k)] at any time before the entry's TTL has elapsed returns
    exactly [v]: the call of [set] returns as soon as the embedding
    function does, and [get] at a time [t1] with [t0 <= t1 < t0 + ttl]
    yields [v]. *)
Theorem set_then_get c k v vec t0 t1 :
  0 < ttl (config c) ->
  embedFn (config c) k = Returned vec ->
  t0 <= t1 < t0 + ttl (config c) ->
  fst (set k v None t0 c) = Returned tt
  /\ fst (get k t1 (snd (set k v None t0 c))) = Some v.
Proof.
  intros _ Hembed Ht.
  assert (Hset : fst (set k v None t0 c) = Returned tt).
  { unfold set. now rewrite Hembed. }
  split; [exact Hset|].
  apply get_after_set; [exact Hset | lia].
Qed.

(** C5. [set(key, value, badVector)] with a vector whose length differs
    from [config.embeddingDimension] fails with the dimension-mismatch
    error and leaves the whole cache as it was: the entries (so the prior
    entry for [key], if any), the configuration and the counters. *)
Theorem set_bad_vector_rejected c k v badVector now :
  vlength badVector <> embeddingDimension (config c) ->
  set k v (Some badVector) now c
  = (Thrown (DimensionMismatch (embeddingDimension (config c))
               (vlength badVector)),
     c).
Proof.
  intros Hlen. unfold set.
  apply Z.eqb_neq in Hlen. now rewrite Hlen.
Qed.

(** X27. [set] on a key already present in the store replaces its entry
    in place: the number of stored entries ([entries.size]) is unchanged,
    the keys of the store and their order are unchanged, and every other
    key keeps its entry (none is evicted), whatever [maxSize] is. *)
Theorem set_existing_key_in_place c k v emb now :
  JsMap.has k (entries c) = true ->
  JsMap.size (entries (snd (set k v emb now c))) = JsMap.size (entries c)
  /\ JsMap.keys (entries (snd (set k v emb now c))) = JsMap.keys (entries c)
  /\ forall k', k' <> k ->
       JsMap.get k' (entries (snd (set k v emb now c)))
       = JsMap.get k' (entries c).
Proof.
  intros Hhas. unfold set.
  destruct (match emb with Some _ => _ | None => _ end) as [vec|e]; simpl;
    [|repeat split; intros; reflexivity].
  rewrite Hhas, andb_false_r. simpl.
  split; [now apply JsMapFacts.size_set_present|].
  split; [now apply JsMapFacts.keys_set_present|].
  intros k' Hne. now apply JsMapFacts.get_set_other.
Qed.
End ExactMatch.

(** [set('q','answer')] at time 5 in the two-entry cache, then [get('q')]
    at time 50. *)
Lemma set_then_get_witness :
  fst (set "q" "answer" None 5 Examples.two) = Returned tt
  /\ fst (get "q" 50 (snd (set "q" "answer" None 5 Examples.two)))
     = Some "answer".
Proof.
  apply (@set_then_get string Examples.two "q" "answer" [1%float] 5 50).
  - reflexivity.
  - reflexivity.
  - simpl. lia.
Defined.

Lemma set_bad_vector_rejected_witness :
  set "a" "other" (Some [1%float; 2%float]) 7 Examples.two
  = (Thrown (DimensionMismatch 1 2), Examples.two).
Proof.
  apply (@set_bad_vector_rejected string Examples.two "a" "other"
           [1%float; 2%float] 7).
  vm_compute. discriminate.
Defined.

(** The cache [two] is at [maxSize]; ['a'] is overwritten. *)
Lemma set_existing_key_in_place_witness :
  JsMap.size (entries (snd (set "a" "new" None 9 Examples.two))) = 2
  /\ JsMap.keys (entries (snd (set "a" "new" None 9 Examples.two)))
     = ["a"; "b"]
  /\ forall k', k' <> "a" ->
       JsMap.get k' (entries (snd (set "a" "new" None 9 Examples.two)))
       = JsMap.get k' (entries Examples.two).
Proof.
  apply (@set_existing_key_in_place string Examples.two "a" "new" None 9).
  reflexivity.
Defined.

(** C6 at its failing input: ['a'] of [two] is overwritten at time 9. The
    call returns and the store keeps its two keys in order, but the size
    cannot be read through [stats()]: [cache.stats] is the counters object
    the constructor assigned, not the method, so [cache.stats()] throws a
    TypeError before the call and after it. *)
Theorem stats_call_throws_around_overwrite :
  call_stats Examples.two = Thrown NotAFunction
  /\ fst (set "a" "new" None 9 Examples.two) = Returned tt
  /\ call_stats (snd (set "a" "new" None 9 Examples.two))
     = Thrown NotAFunction
  /\ JsMap.keys (entries (snd (set "a" "new" None 9 Examples.two)))
     = ["a"; "b"].
Proof. repeat split; reflexivity. Qed.

(** ** The similarity scan *)

Section ScanFacts.
Variable T : Type.
Implicit Types (c : SemanticCache T) (k : string) (v : T).
Implicit Types (rs : list (SimilarityResult T)) (r : SimilarityResult T).

Lemma sort_insert_perm (A : Type) (cmp : A -> A -> float) x (l : list A) :
  Permutation (sort_insert cmp x l) (x :: l).
Proof.
  induction l as [|y l IH]; simpl; [reflexivity|].
  destruct (0 <? cmp x y)%float; [|reflexivity].
  rewrite IH. apply perm_swap.
Qed.

Lemma sort_perm (A : Type) (cmp : A -> A -> float) (l : list A) :
  Permutation (sort cmp l) l.
Proof.
  induction l as [|x l IH]; simpl; [reflexivity|].
  rewrite sort_insert_perm. now constructor.
Qed.

Lemma firstn_incl (A : Type) n (l : list A) x : In x (firstn n l) -> In x l.
Proof.
  intros H. rewrite <- (firstn_skipn n l). apply in_or_app. now left.
Qed.

Lemma slice0_incl (A : Type) (end_ : Z) (l : list A) x :
  In x (slice0 end_ l) -> In x l.
Proof. unfold slice0. apply firstn_incl. Qed.

(** Every result pushed by the loop is built from an entry that is not
    expired and whose similarity reaches the threshold. *)
Lemma scan_In q (es : list (CacheEntry T)) th now rs r :
  scan q es th now = Returned rs -> In r rs ->
  exists entry,
    In entry es /\ qualifies q th now entry (similarity r)
    /\ res_key r = key entry /\ res_value r = value entry.
Proof.
  revert rs. induction es as [|entry es IH]; simpl; intros rs Hscan Hin.
  - injection Hscan as <-. destruct Hin.
  - destruct (expiresAt entry <? now) eqn:Hexp.
    + destruct (IH _ Hscan Hin) as [e [He Hq]]. exists e. tauto.
    + destruct (cosineSimilarity q (embedding entry)) as [sim|] eqn:Hsim;
        [|discriminate].
      destruct (scan q es th now) as [rs'|] eqn:Hrest; [|discriminate].
      injection Hscan as <-.
      destruct (th <=? sim)%float eqn:Hth.
      * destruct Hin as [<-|Hin].
        -- exists entry. simpl. unfold qualifies, is_expired. tauto.
        -- destruct (IH _ eq_refl Hin) as [e [He Hq]]. exists e. tauto.
      * destruct (IH _ eq_refl Hin) as [e [He Hq]]. exists e. tauto.
Qed.

Lemma findKNearest_In q (m : JsMap.t (CacheEntry T)) kk th now rs r :
  findKNearest q m kk th now = Returned rs -> In r rs ->
  exists entry,
    In entry (JsMap.values m) /\ qualifies q th now entry (similarity r)
    /\ res_key r = key entry /\ res_value r = value entry.
Proof.
  unfold findKNearest.
  destruct (scan q (JsMap.values m) th now) as [rs'|] eqn:Hscan;
    [|discriminate].
  intros [= <-] Hin. apply slice0_incl in Hin.
  apply (Permutation_in _ (sort_perm _ _)) in Hin.
  eapply scan_In; eassumption.
Qed.

Lemma getSimilar_Returned query kk th now c rs :
  fst (getSimilar query kk th now c) = Returned rs ->
  exists q,
    query_vector c query = Returned q
    /\ findKNearest q (entries c) (orElse kk 5)
         (orElse th (similarityThreshold (config c))) now = Returned rs.
Proof.
  unfold getSimilar. fold (query_vector c query).
  destruct (query_vector c query) as [q|]; [|discriminate].
  destruct (findKNearest _ _ _ _ _) as [rs'|] eqn:Hfind; [|discriminate].
  simpl. intros [= <-]. now exists q.
Qed.

(** [getSimilar] never writes to the store. *)
Lemma getSimilar_entries query kk th now c :
  entries (snd (getSimilar query kk th now c)) = entries c.
Proof.
  unfold getSimilar. fold (query_vector c query).
  destruct (query_vector c query); [|reflexivity].
  now destruct (findKNearest _ _ _ _ _).
Qed.

(** In a well-formed store, a result with key [k] comes from the entry
    stored under [k]. *)
Lemma getSimilar_result_entry query kk th now c rs r :
  wf_entries (entries c) ->
  fst (getSimilar query kk th now c) = Returned rs -> In r rs ->
  exists entry,
    JsMap.get (res_key r) (entries c) = Some entry
    /\ is_expired now entry = false
    /\ res_value r = value entry.
Proof.
  intros [Hnd Hkeys] Hret Hin.
  apply getSimilar_Returned in Hret as [q [_ Hfind]].
  eapply findKNearest_In in Hfind; [|exact Hin].
  destruct Hfind as [entry [Hentry [[Hlive _] [Hk Hv]]]].
  exists entry. split; [|tauto].
  unfold JsMap.values in Hentry. apply in_map_iff in Hentry as [[k' e] [He Hp]].
  simpl in He. subst e.
  rewrite Forall_forall in Hkeys. specialize (Hkeys _ Hp). simpl in Hkeys.
  rewrite Hk, Hkeys. now apply JsMapFacts.In_get.
Qed.
End ScanFacts.

(** ** Expiry *)

Section Expiry.
Variable T : Type.
Implicit Types (c : SemanticCache T) (k : string) (v : T).

Lemma has_of_get (m : JsMap.t (CacheEntry T)) k e :
  JsMap.get k m = Some e -> JsMap.has k m = true.
Proof. unfold JsMap.has. now intros ->. Qed.

Lemma has_delete_same (m : JsMap.t (CacheEntry T)) k :
  JsMap.has k (JsMap.delete k m) = false.
Proof. unfold JsMap.has. now rewrite JsMapFacts.get_delete_same. Qed.

(** The scan passes over an entry whose [expiresAt] is behind the clock. *)
Lemma getSimilar_skips_expired c k e now :
  wf_entries (entries c) ->
  JsMap.get k (entries c) = Some e ->
  (expiresAt e <? now) = true ->
  forall query kk th rs,
    fst (getSimilar query kk th now c) = Returned rs ->
    forall r, In r rs -> res_key r <> k.
Proof.
  intros Hwf Hget Hexp query kk th rs Hret r Hin Hk.
  pose proof (@getSimilar_result_entry T query kk th now c rs r Hwf Hret Hin)
    as [entry [Hentry [Hlive _]]].
  rewrite Hk, Hget in Hentry. injection Hentry as <-.
  unfold is_expired in Hlive. congruence.
Qed.

(** C8 (amended). [get] and [has] purge the expired entry they touch: its
    key leaves the store and the size drops by one. [getSimilar] skips
    expired entries and leaves the store exactly as it was. *)
Theorem expired_entry_purged_by_get_and_has c k e now :
  wf_entries (entries c) ->
  JsMap.get k (entries c) = Some e ->
  expiresAt e < now ->
  (JsMap.has k (entries (snd (get k now c))) = false
   /\ size (stats (snd (get k now c))) = size (stats c) - 1)
  /\ (JsMap.has k (entries (snd (has k now c))) = false
      /\ size (stats (snd (has k now c))) = size (stats c) - 1)
  /\ forall query kk th,
       entries (snd (getSimilar query kk th now c)) = entries c.
Proof.
  intros [Hnd _] Hget Hexp. apply Z.ltb_lt in Hexp.
  pose proof (has_of_get _ _ Hget) as Hhas.
  split; [|split].
  - unfold get. rewrite Hget, Hexp. simpl.
    split; [apply has_delete_same | now apply JsMapFacts.size_delete].
  - unfold has. rewrite Hget, Hexp. simpl.
    split; [apply has_delete_same | now apply JsMapFacts.size_delete].
  - intros. apply getSimilar_entries.
Qed.

(** C10. For a key whose entry is expired but still in storage,
    [delete(key)] returns [true] and removes the entry, although [get],
    [has] and [getSimilar] already treat the key as absent. *)
Theorem delete_expired_unpurged c k e now :
  wf_entries (entries c) ->
  JsMap.get k (entries c) = Some e ->
  expiresAt e < now ->
  (fst (delete k c) = true
   /\ JsMap.get k (entries (snd (delete k c))) = None)
  /\ fst (get k now c) = None
  /\ fst (has k now c) = false
  /\ forall query kk th rs,
       fst (getSimilar query kk th now c) = Returned rs ->
       forall r, In r rs -> res_key r <> k.
Proof.
  intros Hwf Hget Hexp. split.
  - unfold delete. simpl. split.
    + exact (has_of_get _ _ Hget).
    + apply JsMapFacts.get_delete_same.
  - pose proof Hexp as Hexp'. apply Z.ltb_lt in Hexp'.
    split; [|split].
    + unfold get. now rewrite Hget, Hexp'.
    + unfold has. now rewrite Hget, Hexp'.
    + now apply getSimilar_skips_expired with (e := e).
Qed.
End Expiry.

Lemma wf_two : wf_entries (entries Examples.two).
Proof.
  split.
  - vm_compute. repeat constructor; simpl; intuition discriminate.
  - vm_compute. repeat constructor.
Qed.

(** C2, as stated, fails at the boundary: ['a'] was set at time 1 with
    ttl 100, so its [expiresAt] is 101; at time 101 all three read paths
    still serve it. *)
Lemma read_at_expiry_instant :
  JsMap.get "a" (entries Examples.two) = Some Examples.entry_a
  /\ expiresAt Examples.entry_a <= 101
  /\ fst (get "a" 101 Examples.two) = Some "va"
  /\ fst (has "a" 101 Examples.two) = true
  /\ fst (getSimilar (inr [1%float]) (Some 5) (Some 0%float) 101 Examples.two)
     = Returned
         [ {| res_key := "a"; res_value := "va"; similarity := 1%float |};
           {| res_key := "b"; res_value := "vb"; similarity := 1%float |} ].
Proof.
  repeat split; try reflexivity; simpl; lia.
Qed.

(** C8, as stated, fails for the similarity scan: at time 500 both entries
    of [two] are expired; [getSimilar] returns nothing and both entries
    are still stored. *)
Lemma getSimilar_leaves_expired_entries :
  JsMap.get "a" (entries Examples.two) = Some Examples.entry_a
  /\ expiresAt Examples.entry_a < 500
  /\ fst (getSimilar (inr [1%float]) None None 500 Examples.two) = Returned []
  /\ JsMap.has "a"
       (entries (snd (getSimilar (inr [1%float]) None None 500 Examples.two)))
     = true
  /\ size (stats (snd (getSimilar (inr [1%float]) None None 500 Examples.two)))
     = 2.
Proof.
  repeat split; try reflexivity; simpl; lia.
Qed.

Lemma expired_entry_purged_by_get_and_has_witness :
  (JsMap.has "a" (entries (snd (get "a" 500 Examples.two))) = false
   /\ size (stats (snd (get "a" 500 Examples.two)))
      = size (stats Examples.two) - 1)
  /\ (JsMap.has "a" (entries (snd (has "a" 500 Examples.two))) = false
      /\ size (stats (snd (has "a" 500 Examples.two)))
         = size (stats Examples.two) - 1)
  /\ forall query kk th,
       entries (snd (getSimilar query kk th 500 Examples.two))
       = entries Examples.two.
Proof.
  apply (@expired_entry_purged_by_get_and_has string Examples.two "a"
           Examples.entry_a 500).
  - exact wf_two.
  - reflexivity.
  - simpl. lia.
Defined.

Lemma delete_expired_unpurged_witness :
  (fst (delete "a" Examples.two) = true
   /\ JsMap.get "a" (entries (snd (delete "a" Examples.two))) = None)
  /\ fst (get "a" 500 Examples.two) = None
  /\ fst (has "a" 500 Examples.two) = false
  /\ forall query kk th rs,
       fst (getSimilar query kk th 500 Examples.two) = Returned rs ->
       forall r, In r rs -> res_key r <> "a".
Proof.
  apply (@delete_expired_unpurged string Examples.two "a" Examples.entry_a 500).
  - exact wf_two.
  - reflexivity.
  - simpl. lia.
Defined.

(** ** Invariants of reachable states *)

Section Reachable.
Variable T : Type.
Implicit Types (c : SemanticCache T) (k : string) (v : T).
Implicit Types (m : JsMap.t (CacheEntry T)).

Lemma wf_delete k m : wf_entries m -> wf_entries (JsMap.delete k m).
Proof.
  intros [Hnd Hkeys]. split.
  - now apply JsMapFacts.NoDup_delete.
  - rewrite Forall_forall in *. intros p Hp.
    apply Hkeys. now apply JsMapFacts.In_delete in Hp.
Qed.

Lemma wf_set k (entry : CacheEntry T) m :
  key entry = k -> wf_entries m -> wf_entries (JsMap.set k entry m).
Proof.
  intros Hk [Hnd Hkeys]. split.
  - now apply JsMapFacts.NoDup_set.
  - rewrite Forall_forall in *. intros p Hp.
    apply JsMapFacts.In_set in Hp as [->|Hp]; [exact Hk | now apply Hkeys].
Qed.

(** What [evictOldest] leaves is the store, or the store without one key. *)
Lemma evictOldest_entries c :
  entries (evictOldest c) = entries c
  \/ exists k, entries (evictOldest c) = JsMap.delete k (entries c).
Proof.
  unfold evictOldest. destruct (truthy _); [|now left].
  destruct (oldest_loop _ _ _) as [k|]; [right; now exists k | now left].
Qed.

Lemma config_evictOldest c : config (evictOldest c) = config c.
Proof.
  unfold evictOldest. destruct (truthy _); [|reflexivity].
  now destruct (oldest_loop _ _ _).
Qed.

(** The entries after a call: what each operation may do to the store. *)
Lemma entries_after op now c :
  forall p, In p (entries (after op now c)) ->
    In p (entries c)
    \/ (exists k v vec,
          op = CallSet k v (Some vec)
          /\ vlength vec = embeddingDimension (config c)
          /\ p = (k, {| key := k; value := v; embedding := vec;
                        timestamp := now;
                        expiresAt := now + ttl (config c) |}))
    \/ (exists k v vec,
          op = CallSet k v None
          /\ embedFn (config c) k = Returned vec
          /\ p = (k, {| key := k; value := v; embedding := vec;
                        timestamp := now;
                        expiresAt := now + ttl (config c) |})).
Proof.
  intros p. destruct op as [k|k v emb|q kk th|k|k|]; simpl.
  - unfold get. destruct (JsMap.get k (entries c)) as [e|]; simpl; [|tauto].
    destruct (expiresAt e <? now); simpl; [|tauto].
    intros H. left. now apply JsMapFacts.In_delete in H.
  - unfold set.
    assert (Hevict : forall p',
      In p' (entries (if (maxSize (config c) <=? JsMap.size (entries c))
                         && negb (JsMap.has k (entries c))
                      then evictOldest c else c)) -> In p' (entries c)).
    { intros p'. destruct (_ && _); [|tauto].
      destruct (evictOldest_entries c) as [->|[k0 ->]]; [tauto|].
      apply JsMapFacts.In_delete. }
    assert (Hcfg : config (if (maxSize (config c) <=? JsMap.size (entries c))
                         && negb (JsMap.has k (entries c))
                      then evictOldest c else c) = config c).
    { destruct (_ && _); [apply config_evictOldest | reflexivity]. }
    destruct emb as [vec|].
    + destruct (vlength vec =? embeddingDimension (config c)) eqn:Hlen;
        simpl; [|tauto].
      apply Z.eqb_eq in Hlen. intros H.
      apply JsMapFacts.In_set in H as [->|H]; [|left; now apply Hevict].
      right. left. now exists k, v, vec.
    + destruct (embedFn (config c) k) as [vec|] eqn:Hembed; simpl; [|tauto].
      intros H.
      apply JsMapFacts.In_set in H as [->|H]; [|left; now apply Hevict].
      right. right. now exists k, v, vec.
  - rewrite getSimilar_entries. tauto.
  - unfold has. destruct (JsMap.get k (entries c)) as [e|]; simpl; [|tauto].
    destruct (expiresAt e <? now); simpl; [|tauto].
    intros H. left. now apply JsMapFacts.In_delete in H.
  - intros H. left. now apply JsMapFacts.In_delete in H.
  - tauto.
Qed.

Lemma config_after op now c : config (after op now c) = config c.
Proof.
  destruct op as [k|k v emb|q kk th|k|k|]; simpl.
  - unfold get. destruct (JsMap.get k (entries c)) as [e|]; [|reflexivity].
    now destruct (expiresAt e <? now).
  - apply config_set.
  - unfold getSimilar. fold (query_vector c q).
    destruct (query_vector c q); [|reflexivity].
    now destruct (findKNearest _ _ _ _ _).
  - unfold has. destruct (JsMap.get k (entries c)) as [e|]; [|reflexivity].
    now destruct (expiresAt e <? now).
  - reflexivity.
  - reflexivity.
Qed.

Lemma reachable_config cfg c : reachable cfg c -> config c = cfg.
Proof.
  induction 1 as [|c op now _ IH]; [reflexivity|].
  now rewrite config_after.
Qed.

Lemma wf_after op now c :
  wf_entries (entries c) -> wf_entries (entries (after op now c)).
Proof.
  intros Hwf. destruct op as [k|k v emb|q kk th|k|k|]; simpl.
  - unfold get. destruct (JsMap.get k (entries c)) as [e|]; simpl; [|exact Hwf].
    destruct (expiresAt e <? now); simpl; [now apply wf_delete | exact Hwf].
  - unfold set.
    destruct (match emb with Some _ => _ | None => _ end); simpl;
      [|exact Hwf].
    apply wf_set; [reflexivity|].
    destruct (_ && _); [|exact Hwf].
    destruct (evictOldest_entries c) as [->|[k0 ->]];
      [exact Hwf | now apply wf_delete].
  - now rewrite getSimilar_entries.
  - unfold has. destruct (JsMap.get k (entries c)) as [e|]; simpl; [|exact Hwf].
    destruct (expiresAt e <? now); simpl; [now apply wf_delete | exact Hwf].
  - now apply wf_delete.
  - split; constructor.
Qed.

(** X17. Every state of a cache keeps one slot per key, each entry under its
    own key. *)
Lemma reachable_wf cfg c : reachable cfg c -> wf_entries (entries c).
Proof.
  induction 1 as [|c op now _ IH]; [split; constructor|].
  now apply wf_after.
Qed.

(** C9 (amended). In every reachable state, every stored vector has
    length exactly [config.embeddingDimension], provided the configured
    embedding function returns vectors of that length: a supplied vector
    of another length is rejected by [set], a generated one is stored as
    the embedding function returned it. *)
Theorem stored_vectors_have_configured_dimension cfg c :
  embedFn_respects_dimension cfg ->
  reachable cfg c ->
  dimension_ok c.
Proof.
  intros Hcontract Hreach. unfold dimension_ok.
  induction Hreach as [|c op now Hreach IH]; [constructor|].
  pose proof (reachable_config Hreach) as Hcfg.
  rewrite config_after. rewrite Forall_forall in *. intros p Hp.
  apply entries_after in Hp
    as [Hp|[(k & v & vec & _ & Hlen & ->)|(k & v & vec & _ & Hembed & ->)]].
  - now apply IH.
  - exact Hlen.
  - simpl. rewrite Hcfg in *. exact (Hcontract k vec Hembed).
Qed.
End Reachable.

Lemma reachable_set_all (T : Type) cfg (kvs : list (string * T * Z)) c :
  reachable cfg c -> reachable cfg (set_all kvs c).
Proof.
  revert c. induction kvs as [|[[k v] now] kvs IH]; intros c Hc; [exact Hc|].
  simpl. apply IH. exact (reachable_after (CallSet k v None) now Hc).
Qed.

(** ** The default embedding *)

Section DefaultEmbeddingFacts.
Variable Math_sin : float -> float.
Variable toLowerCase : string -> string.

Lemma add_at_length idx d v : List.length (add_at idx d v) = List.length v.
Proof.
  revert idx. induction v as [|x v IH]; intros [|idx]; simpl; auto.
Qed.

Lemma embed_loop_length dimension chars i v :
  List.length (embed_loop Math_sin dimension chars i v) = List.length v.
Proof.
  revert i v. induction chars as [|ch chars IH]; intros i v; simpl;
    [reflexivity|].
  rewrite IH. destruct (dimension =? 0); [reflexivity|apply add_at_length].
Qed.

Lemma normalize_length v : List.length (normalize v) = List.length v.
Proof.
  unfold normalize. destruct (_ =? _)%float; [reflexivity|apply length_map].
Qed.

(** [defaultEmbedding(text, dimension)] returns [dimension] numbers. *)
Lemma defaultEmbedding_length text dimension vec :
  defaultEmbedding Math_sin toLowerCase text dimension = Returned vec ->
  vlength vec = dimension.
Proof.
  unfold defaultEmbedding.
  destruct ((dimension <? 0) || (2 ^ 32 <=? dimension)) eqn:Hrange;
    [discriminate|].
  intros [= <-]. unfold vlength.
  rewrite normalize_length, embed_loop_length, repeat_length.
  apply orb_false_iff in Hrange as [Hneg _]. apply Z.ltb_ge in Hneg. lia.
Qed.

(** It returns for every text when [dimension] is an array length. *)
Lemma defaultEmbedding_returns text dimension :
  0 <= dimension < 2 ^ 32 ->
  exists vec,
    defaultEmbedding Math_sin toLowerCase text dimension = Returned vec.
Proof.
  intros [Hlo Hhi]. unfold defaultEmbedding.
  apply Z.ltb_ge in Hlo. apply Z.leb_gt in Hhi. rewrite Hlo, Hhi. simpl.
  eexists. reflexivity.
Qed.

(** A cache constructed without [embedFn] has a provider that keeps the
    contract. *)
Lemma default_embedFn_respects_dimension (T : Type) (cfg0 : option CacheConfig) :
  opt cfg0 cfg_embedFn = None ->
  embedFn_respects_dimension
    (config (new_SemanticCache Math_sin toLowerCase T cfg0)).
Proof.
  intros Hnone text vec. simpl. rewrite Hnone. simpl.
  apply defaultEmbedding_length.
Qed.

End DefaultEmbeddingFacts.

Lemma unit_embedFn_respects_dimension n :
  embedFn_respects_dimension (Examples.cfg n).
Proof. intros text vec [= <-]. reflexivity. Qed.

Lemma stored_vectors_have_configured_dimension_witness :
  dimension_ok Examples.two.
Proof.
  apply (@stored_vectors_have_configured_dimension string (Examples.cfg 2)
           Examples.two).
  - apply unit_embedFn_respects_dimension.
  - apply reachable_set_all. constructor.
Defined.

(** C9, as stated, fails for a configured embedding function that ignores
    the configured dimension: with [embeddingDimension = 3] and a function
    that returns one number, [set('a','va')] stores a vector of length 1. *)
Lemma short_vector_is_stored :
  reachable Examples.cfg3 Examples.short
  /\ JsMap.get "a" (entries Examples.short)
     = Some {| key := "a"; value := "va"; embedding := [1%float];
               timestamp := 1; expiresAt := 101 |}
  /\ embeddingDimension (config Examples.short) = 3
  /\ ~ dimension_ok Examples.short.
Proof.
  split; [apply reachable_set_all; constructor|].
  split; [reflexivity|]. split; [reflexivity|].
  intros H. unfold dimension_ok in H. rewrite Forall_forall in H.
  specialize (H _ (JsMapFacts.get_In _ _ (eq_refl : JsMap.get "a" (entries Examples.short) = Some _))).
  vm_compute in H. discriminate.
Qed.

(** ** Eviction *)

Section Eviction.
Variable T : Type.
Implicit Types (c : SemanticCache T) (k : string) (v : T).
Implicit Types (m : JsMap.t (CacheEntry T)).

(** The loop of [evictOldest], started with a candidate [k0] of timestamp
    [t0]: it keeps the candidate unless an entry is strictly older, and
    then ends on the oldest entry. *)
Lemma oldest_loop_from m k0 t0 :
  (oldest_loop m (Some k0) (Some t0) = Some k0
   /\ Forall (fun p => t0 <= timestamp (snd p)) m)
  \/ (exists k e,
        oldest_loop m (Some k0) (Some t0) = Some k
        /\ timestamp e < t0 /\ oldest_at m k e).
Proof.
  revert k0 t0. induction m as [|[k1 e1] m IH]; intros k0 t0; simpl.
  - left. split; [reflexivity|constructor].
  - destruct (timestamp e1 <? t0) eqn:Hlt.
    + apply Z.ltb_lt in Hlt. right.
      destruct (IH k1 (timestamp e1)) as [[Hres Hall]|(k & e & Hres & He & Hold)].
      * exists k1, e1. split; [exact Hres|]. split; [exact Hlt|].
        exists [], m. simpl. repeat split; [constructor | exact Hall].
      * exists k, e. split; [exact Hres|]. split; [lia|].
        destruct Hold as (before & behind & -> & Hbefore & Hbehind).
        exists ((k1, e1) :: before), behind.
        repeat split; [constructor; [exact He | exact Hbefore] | exact Hbehind].
    + apply Z.ltb_ge in Hlt.
      destruct (IH k0 t0) as [[Hres Hall]|(k & e & Hres & He & Hold)].
      * left. split; [exact Hres|]. constructor; [exact Hlt | exact Hall].
      * right. exists k, e. split; [exact Hres|]. split; [exact He|].
        destruct Hold as (before & behind & -> & Hbefore & Hbehind).
        exists ((k1, e1) :: before), behind.
        repeat split; [constructor; [simpl; lia | exact Hbefore] | exact Hbehind].
Qed.

(** On a store that is not empty, the loop ends on the oldest entry. *)
Lemma oldest_loop_oldest m :
  m <> [] ->
  exists k e, oldest_loop m None None = Some k /\ oldest_at m k e.
Proof.
  destruct m as [|[k1 e1] m]; [congruence|]. intros _. simpl.
  destruct (oldest_loop_from m k1 (timestamp e1))
    as [[Hres Hall]|(k & e & Hres & He & Hold)].
  - exists k1, e1. split; [exact Hres|].
    exists [], m. simpl. repeat split; [constructor | exact Hall].
  - exists k, e. split; [exact Hres|].
    destruct Hold as (before & behind & -> & Hbefore & Hbehind).
    exists ((k1, e1) :: before), behind.
    repeat split; [constructor; [exact He | exact Hbefore] | exact Hbehind].
Qed.

(** [evictOldest] removes the oldest entry, unless its key is the empty
    string: then it removes nothing. *)
Lemma evictOldest_oldest c :
  entries c <> [] ->
  exists k e,
    oldest_at (entries c) k e
    /\ entries (evictOldest c)
       = if String.eqb k "" then entries c else JsMap.delete k (entries c).
Proof.
  intros Hne.
  destruct (@oldest_loop_oldest (entries c) Hne) as (k & e & Hres & Hold).
  exists k, e. split; [exact Hold|].
  unfold evictOldest. rewrite Hres. simpl.
  now destruct (String.eqb k "").
Qed.

(** X2. A [set] of a new key into a full store, when it returns: the oldest
    entry makes room and the size stays, unless the key of the oldest
    entry is the empty string: then nothing makes room and the store
    grows beyond [maxSize]. *)
Lemma set_new_key_when_full c k v emb now :
  wf_entries (entries c) ->
  entries c <> [] ->
  maxSize (config c) <= JsMap.size (entries c) ->
  JsMap.has k (entries c) = false ->
  fst (set k v emb now c) = Returned tt ->
  exists k0 e0,
    oldest_at (entries c) k0 e0
    /\ JsMap.keys (entries (snd (set k v emb now c)))
       = ((if String.eqb k0 "" then JsMap.keys (entries c)
           else JsMap.keys (JsMap.delete k0 (entries c))) ++ [k])%list
    /\ size (stats (snd (set k v emb now c)))
       = if String.eqb k0 "" then size (stats c) + 1 else size (stats c).
Proof.
  intros [Hnd _] Hne Hfull Hhas. unfold set.
  destruct (match emb with Some _ => _ | None => _ end) as [vec|];
    [|discriminate].
  intros _. apply Z.leb_le in Hfull. rewrite Hfull, Hhas. simpl.
  destruct (@evictOldest_oldest c Hne) as (k0 & e0 & Hold & Hevict).
  exists k0, e0. split; [exact Hold|].
  rewrite Hevict.
  assert (Hk0 : JsMap.has k0 (entries c) = true).
  { destruct Hold as (before & behind & Heq & _).
    unfold JsMap.has.
    rewrite (@JsMapFacts.In_get _ k0 e0 (entries c) Hnd); [reflexivity|].
    rewrite Heq. apply in_or_app. right. now left. }
  destruct (String.eqb k0 "") eqn:Hempty.
  - split.
    + now apply JsMapFacts.keys_set_absent.
    + now apply JsMapFacts.size_set_absent.
  - assert (Hhas' : JsMap.has k (JsMap.delete k0 (entries c)) = false).
    { unfold JsMap.has in *.
      destruct (JsMap.get k (entries c)) eqn:G; [discriminate|].
      destruct (String.eqb k k0) eqn:E.
      - apply String.eqb_eq in E. subst k0.
        now rewrite JsMapFacts.get_delete_same.
      - apply String.eqb_neq in E.
        now rewrite JsMapFacts.get_delete_other, G. }
    split.
    + now apply JsMapFacts.keys_set_absent.
    + rewrite JsMapFacts.size_set_absent by exact Hhas'.
      rewrite JsMapFacts.size_delete by assumption. lia.
Qed.
End Eviction.

(** The scenario of the specification: [maxSize = 3], [key1], [key2],
    [key3], then [key4]: the size stays 3 and [key1] is evicted. *)
Example four_keys_scenario :
  size (stats Examples.four_keys) = 3
  /\ JsMap.keys (entries Examples.four_keys) = ["key2"; "key3"; "key4"]
  /\ fst (has "key1" 5 Examples.four_keys) = false
  /\ fst (has "key4" 5 Examples.four_keys) = true.
Proof. repeat split; reflexivity. Qed.

(** [set('q', 'answer')], [get('q')]: ['answer'], one hit, no miss. *)
Example asked_scenario :
  fst (get "q" 2 Examples.asked) = Some "answer"
  /\ hits (stats (snd (get "q" 2 Examples.asked))) = 1
  /\ misses (stats (snd (get "q" 2 Examples.asked))) = 0.
Proof. repeat split; reflexivity. Qed.

(** C4 at its failing input: with [maxSize = 2], the keys [''], ['a'],
    ['b'] are inserted in this order at times 1, 2, 3. The oldest entry is
    the one of ['']; [evictOldest] finds it and then skips the deletion,
    the empty string being falsy: three entries are left. With ['x'] as
    the first key the same run evicts ['x'] and leaves two. *)
Theorem empty_key_is_not_evicted :
  JsMap.keys (entries Examples.empty_key_first) = [""; "a"; "b"]
  /\ size (stats Examples.empty_key_first) = 3
  /\ maxSize (config Examples.empty_key_first) = 2
  /\ JsMap.keys (entries Examples.x_key_first) = ["a"; "b"]
  /\ size (stats Examples.x_key_first) = 2.
Proof. repeat split; reflexivity. Qed.

(** ** The result count *)

(** [k = 0] yields an empty result. *)
Lemma getSimilar_zero (T : Type) query th now (c : SemanticCache T) rs :
  fst (getSimilar query (Some 0) th now c) = Returned rs -> rs = [].
Proof.
  intros Hret. apply getSimilar_Returned in Hret as [q [_ Hfind]].
  unfold findKNearest in Hfind.
  destruct (scan _ _ _ _) as [rs'|]; [|discriminate].
  injection Hfind as <-. unfold slice0. simpl.
  now rewrite Z.min_l by lia.
Qed.

(** C7 at its failing input: both entries of [two] are live at time 5 and
    match the query [[1]] with similarity 1, as [k = 2] shows; [k = -1]
    makes [slice(0, -1)] drop the last of the two results and return the
    first, where an empty result is expected. *)
Theorem negative_k_returns_results :
  fst (getSimilar (inr [1%float]) (Some 2) (Some 0%float) 5 Examples.two)
  = Returned
      [ {| res_key := "a"; res_value := "va"; similarity := 1%float |};
        {| res_key := "b"; res_value := "vb"; similarity := 1%float |} ]
  /\ fst (getSimilar (inr [1%float]) (Some (-1)) (Some 0%float) 5
            Examples.two)
     = Returned
         [ {| res_key := "a"; res_value := "va"; similarity := 1%float |} ].
Proof. split; reflexivity. Qed.

(** ** Binary64 arithmetic: the order and the sign of a difference

    From the specification of the primitive operations
    ([FloatAxioms]): rounding a nonzero integer at an exponent not below
    [emin] never gives zero, so the sign of [b - a] tells how [a] and [b]
    compare. *)

Module FloatOrder.
Unset Implicit Arguments.
Lemma digits2_pos_bounds p :
  2 ^ (Zpos (digits2_pos p) - 1) <= Zpos p < 2 ^ Zpos (digits2_pos p).
Proof.
  induction p as [p IH|p IH|]; simpl digits2_pos.
  - rewrite Pos2Z.inj_succ.
    replace (Z.succ (Zpos (digits2_pos p)) - 1) with (Z.succ (Zpos (digits2_pos p) - 1)) by lia.
    rewrite !Z.pow_succ_r by lia. lia.
  - rewrite Pos2Z.inj_succ.
    replace (Z.succ (Zpos (digits2_pos p)) - 1) with (Z.succ (Zpos (digits2_pos p) - 1)) by lia.
    rewrite !Z.pow_succ_r by lia. lia.
  - simpl. lia.
Qed.

Lemma shr_1_m mrs : 0 <= shr_m mrs -> shr_m (shr_1 mrs) = shr_m mrs / 2.
Proof.
  destruct mrs as [m r s]. cbn [shr_m]. intros Hm.
  destruct m as [|[p|p|]|p]; cbn [shr_1 shr_m]; try lia.
  - reflexivity.
  - apply Z.div_unique with (r := 1); lia.
  - apply Z.div_unique with (r := 0); lia.
  - reflexivity.
Qed.

Lemma iter_shr_1_m p : forall mrs,
  0 <= shr_m mrs -> shr_m (iter_pos shr_1 p mrs) = shr_m mrs / 2 ^ Zpos p.
Proof.
  assert (Hnn : forall a b, 0 <= a -> 0 < b -> 0 <= a / b).
  { intros. apply Z.div_pos; lia. }
  induction p as [p IH|p IH|]; intros mrs Hm; simpl iter_pos.
  - assert (P : 0 < 2 ^ Zpos p) by (apply Z.pow_pos_nonneg; lia).
    assert (H1 : 0 <= shr_m (shr_1 mrs)).
    { rewrite shr_1_m by lia. apply Hnn; lia. }
    assert (H2 : 0 <= shr_m (iter_pos shr_1 p (shr_1 mrs))).
    { rewrite IH by lia. apply Hnn; lia. }
    rewrite IH by lia. rewrite IH by lia. rewrite shr_1_m by lia.
    rewrite !Z.div_div by lia.
    f_equal.
    replace (Z.pos p~1) with (1 + Z.pos p + Z.pos p) by lia.
    rewrite !Z.pow_add_r by lia. ring.
  - assert (P : 0 < 2 ^ Zpos p) by (apply Z.pow_pos_nonneg; lia).
    assert (H2 : 0 <= shr_m (iter_pos shr_1 p mrs)).
    { rewrite IH by lia. apply Hnn; lia. }
    rewrite IH by lia. rewrite IH by lia.
    rewrite !Z.div_div by lia.
    f_equal.
    replace (Z.pos p~0) with (Z.pos p + Z.pos p) by lia.
    rewrite !Z.pow_add_r by lia. ring.
  - now apply shr_1_m.
Qed.

Lemma shr_m_of_loc m l : shr_m (shr_record_of_loc m l) = m.
Proof. destruct l as [|[]]; reflexivity. Qed.

(** Shifting a positive mantissa to its canonical exponent keeps it positive. *)
Lemma shr_fexp_pos m e l :
  emin <= e -> 0 < m ->
  0 < shr_m (fst (shr_fexp prec emax m e l))
  /\ emin <= snd (shr_fexp prec emax m e l).
Proof.
  intros He Hm. unfold shr_fexp, shr.
  destruct m as [|p|p]; try lia. cbn [Zdigits2].
  pose proof (digits2_pos_bounds p) as [Hlo _].
  set (d := Zpos (digits2_pos p)) in *.
  destruct (fexp prec emax (d + e) - e) as [|n|n] eqn:Hn; cbn [fst snd];
    rewrite ?shr_m_of_loc; try (split; lia).
  rewrite iter_shr_1_m by (rewrite shr_m_of_loc; lia).
  rewrite shr_m_of_loc.
  unfold fexp, SpecFloat.emin, prec, emax in *.
  assert (Hnd : Zpos n = d - 53) by lia.
  split; [|lia].
  apply Z.div_str_pos. split; [apply Z.pow_pos_nonneg; lia|].
  apply Z.le_trans with (2 ^ (d - 1)); [|exact Hlo].
  apply Z.pow_le_mono_r; lia.
Qed.

Lemma round_nearest_even_pos m l : 0 < m -> 0 < round_nearest_even m l.
Proof.
  intros Hm. destruct l as [|[]]; simpl; try lia.
  destruct (Z.even m); lia.
Qed.

Lemma binary_round_aux_sign s m e l :
  emin <= e -> 0 < m -> has_sign s (binary_round_aux prec emax s m e l).
Proof.
  intros He Hm. unfold binary_round_aux.
  pose proof (shr_fexp_pos m e l He Hm) as [H1 H2].
  destruct (shr_fexp prec emax m e l) as [mrs' e']. cbn [fst snd] in *.
  pose proof (round_nearest_even_pos (shr_m mrs') (loc_of_shr_record mrs') H1) as H3.
  pose proof (shr_fexp_pos _ e' loc_Exact H2 H3) as [H4 _].
  destruct (shr_fexp prec emax _ e' loc_Exact) as [mrs'' e'']. cbn [fst snd] in *.
  destruct (shr_m mrs'') as [|p|p]; try lia.
  destruct (e'' <=? emax - prec); reflexivity.
Qed.

Lemma binary_round_sign s m e :
  emin <= e -> has_sign s (binary_round prec emax s m e).
Proof.
  intros He. unfold binary_round, shl_align.
  set (e' := fexp prec emax (Zpos (digits2_pos m) + e)).
  assert (He' : emin <= e').
  { unfold e', fexp. lia. }
  destruct (e' - e) as [|n|n]; apply binary_round_aux_sign; lia.
Qed.

Lemma binary_normalize_sign m e sz :
  emin <= e ->
  (0 < m -> has_sign false (binary_normalize prec emax m e sz))
  /\ (m < 0 -> has_sign true (binary_normalize prec emax m e sz)).
Proof.
  intros He. destruct m as [|p|p]; simpl; split; intros H; try lia;
    now apply binary_round_sign.
Qed.

Lemma iter_xO_value m d : Zpos (Pos.iter xO m d) = Zpos m * 2 ^ Zpos d.
Proof.
  induction d as [|d IH] using Pos.peano_ind.
  - simpl. lia.
  - rewrite Pos.iter_succ, Pos2Z.inj_xO, IH, Pos2Z.inj_succ, Z.pow_succ_r by lia.
    ring.
Qed.

Lemma shl_align_value m e e' :
  e' <= e -> Zpos (fst (shl_align m e e')) = Zpos m * 2 ^ (e - e').
Proof.
  intros He. unfold shl_align.
  destruct (e' - e) as [|d|d] eqn:Hd; cbn [fst]; try lia.
  - replace (e - e') with 0 by lia. simpl. lia.
  - rewrite iter_xO_value. f_equal. f_equal. lia.
Qed.

(** What validity says of a finite binary64 value. *)
Lemma bounded_facts m e :
  bounded prec emax m e = true ->
  emin <= e
  /\ Zpos (digits2_pos m) <= 53
  /\ (emin < e -> Zpos (digits2_pos m) = 53).
Proof.
  unfold bounded, canonical_mantissa, fexp, SpecFloat.emin, prec, emax.
  intros H. apply andb_true_iff in H as [H _]. apply Z.eqb_eq in H. lia.
Qed.

(** Between two valid finite values, the larger exponent carries the
    larger magnitude. *)
Lemma magnitude_by_exponent m1 e1 m2 e2 :
  bounded prec emax m1 e1 = true -> bounded prec emax m2 e2 = true ->
  e2 < e1 -> Zpos m2 < Zpos m1 * 2 ^ (e1 - e2).
Proof.
  intros H1 H2 He.
  apply bounded_facts in H1 as (Hmin1 & _ & Hd1).
  apply bounded_facts in H2 as (Hmin2 & Hd2 & _).
  pose proof (digits2_pos_bounds m1) as [Hlo1 _].
  pose proof (digits2_pos_bounds m2) as [_ Hhi2].
  rewrite Hd1 in Hlo1 by lia.
  assert (Hhi : 2 ^ Zpos (digits2_pos m2) <= 2 ^ 53)
    by (apply Z.pow_le_mono_r; lia).
  assert (Hp : 2 ^ 1 <= 2 ^ (e1 - e2)) by (apply Z.pow_le_mono_r; lia).
  change (2 ^ (53 - 1)) with 4503599627370496 in Hlo1.
  change (2 ^ 53) with 9007199254740992 in Hhi.
  change (2 ^ 1) with 2 in Hp.
  nia.
Qed.

(** The sign of a difference of two finite values, from the order of the
    two values. *)
Lemma finite_sub_sign sx mx ex sy my ey :
  bounded prec emax mx ex = true -> bounded prec emax my ey = true ->
  let x := S754_finite sx mx ex in
  let y := S754_finite sy my ey in
  (SFcompare x y = Some Gt -> has_sign false (SF64sub x y))
  /\ (SFcompare x y = Some Lt -> has_sign true (SF64sub x y)).
Proof.
  intros Vx Vy x y. unfold x, y, SF64sub, SFsub.
  pose proof (bounded_facts _ _ Vx) as (Hminx & _).
  pose proof (bounded_facts _ _ Vy) as (Hminy & _).
  set (ez := Z.min ex ey).
  assert (Hez : emin <= ez) by (unfold ez; lia).
  rewrite (shl_align_value mx ex ez) by (unfold ez; lia).
  rewrite (shl_align_value my ey ez) by (unfold ez; lia).
  set (D := cond_Zopp sx (Zpos mx * 2 ^ (ex - ez))
            - cond_Zopp sy (Zpos my * 2 ^ (ey - ez))).
  destruct (binary_normalize_sign D ez false Hez) as [Hpos Hneg].
  assert (HX : 0 < Zpos mx * 2 ^ (ex - ez)).
  { apply Z.mul_pos_pos; [lia | apply Z.pow_pos_nonneg; unfold ez; lia]. }
  assert (HY : 0 < Zpos my * 2 ^ (ey - ez)).
  { apply Z.mul_pos_pos; [lia | apply Z.pow_pos_nonneg; unfold ez; lia]. }
  assert (Hord :
    match Z.compare ex ey with
    | Lt => Zpos mx * 2 ^ (ex - ez) < Zpos my * 2 ^ (ey - ez)
    | Gt => Zpos my * 2 ^ (ey - ez) < Zpos mx * 2 ^ (ex - ez)
    | Eq => ex - ez = 0 /\ ey - ez = 0
    end).
  { destruct (Z.compare_spec ex ey) as [Heq|Hlt|Hgt].
    - unfold ez. lia.
    - replace (ex - ez) with 0 by (unfold ez; lia).
      replace (ey - ez) with (ey - ex) by (unfold ez; lia).
      pose proof (magnitude_by_exponent my ey mx ex Vy Vx Hlt).
      change (2 ^ 0) with 1. lia.
    - replace (ey - ez) with 0 by (unfold ez; lia).
      replace (ex - ez) with (ex - ey) by (unfold ez; lia).
      pose proof (magnitude_by_exponent mx ex my ey Vx Vy Hgt).
      change (2 ^ 0) with 1. lia. }
  unfold SFcompare.
  split; intros Hc; [apply Hpos | apply Hneg]; unfold D;
    destruct sx, sy; cbn [cond_Zopp]; try discriminate; try lia;
    destruct (Z.compare ex ey); try discriminate; try lia;
    destruct Hord as [-> ->]; change (2 ^ 0) with 1;
    fold (Pos.compare mx my) in Hc;
    destruct (Pos.compare_spec mx my); try discriminate; lia.
Qed.

Lemma sub_sign x y :
  valid_binary x = true -> valid_binary y = true ->
  (SFcompare x y = Some Gt -> has_sign false (SF64sub x y))
  /\ (SFcompare x y = Some Lt -> has_sign true (SF64sub x y)).
Proof.
  intros Vx Vy.
  destruct x as [sx|sx| |sx mx ex], y as [sy|sy| |sy my ey];
    try (now apply finite_sub_sign);
    try destruct sx; try destruct sy; simpl;
    split; intros Hc; try discriminate; reflexivity.
Qed.

Lemma SFcompare_antisym x y :
  SFcompare x y = option_map CompOpp (SFcompare y x).
Proof.
  destruct x as [sx|sx| |sx mx ex], y as [sy|sy| |sy my ey];
    try destruct sx; try destruct sy; simpl; try reflexivity;
    rewrite (Z.compare_antisym ex ey);
    destruct (Z.compare ex ey); simpl; try reflexivity;
    fold (Pos.compare mx my); fold (Pos.compare my mx);
    rewrite (Pos.compare_antisym my mx);
    now destruct (Pos.compare my mx).
Qed.

Lemma SFleb_trans x y z :
  SFleb x y = true -> SFleb y z = true -> SFleb x z = true.
Proof.
  unfold SFleb.
  destruct x as [sx|sx| |sx mx ex], y as [sy|sy| |sy my ey],
           z as [sz|sz| |sz mz ez];
    try destruct sx; try destruct sy; try destruct sz; simpl;
    try reflexivity; try discriminate;
    fold (Pos.compare mx my); fold (Pos.compare my mz);
    fold (Pos.compare mx mz);
    destruct (Z.compare_spec ex ey), (Z.compare_spec ey ez),
             (Z.compare_spec ex ez);
    try reflexivity; try discriminate; try lia; subst;
    destruct (Pos.compare_spec mx my), (Pos.compare_spec my mz),
             (Pos.compare_spec mx mz);
    simpl; try reflexivity; try discriminate; lia.
Qed.

Lemma Prim2SF_zero : Prim2SF 0%float = S754_zero false.
Proof. reflexivity. Qed.

Lemma zero_ltb_iff f : SFltb (S754_zero false) f = true <-> has_sign false f.
Proof.
  destruct f as [s|s| |s m e]; try destruct s; simpl; split;
    intros H; try discriminate; try reflexivity; try contradiction.
Qed.

(** ** The comparator [b - a] agrees with the order of [a] and [b] *)

Lemma leb_trans a b c :
  (a <=? b)%float = true -> (b <=? c)%float = true -> (a <=? c)%float = true.
Proof. rewrite !leb_spec. apply SFleb_trans. Qed.

(** A positive difference [b - a] means [a <= b]. *)
Lemma sub_pos_leb a b :
  (0 <? b - a)%float = true -> (a <=? b)%float = true.
Proof.
  rewrite ltb_spec, leb_spec, sub_spec, Prim2SF_zero, zero_ltb_iff.
  intros Hsign. unfold SFleb.
  destruct (SFcompare (Prim2SF a) (Prim2SF b)) as [[]|] eqn:Hc;
    try reflexivity.
  - (* a > b: the difference b - a would be negative *)
    rewrite SFcompare_antisym in Hc.
    destruct (SFcompare (Prim2SF b) (Prim2SF a)) as [[]|] eqn:Hc';
      try discriminate.
    destruct (sub_sign _ _ (Prim2SF_valid b) (Prim2SF_valid a)) as [_ Hneg].
    specialize (Hneg Hc').
    destruct (SF64sub (Prim2SF b) (Prim2SF a)) as [s|s| |s m e];
      simpl in *; try contradiction; congruence.
  - (* not comparable: the difference is NaN *)
    exfalso.
    destruct (Prim2SF a) as [sa|sa| |sa ma ea], (Prim2SF b) as [sb|sb| |sb mb eb];
      try destruct sa; try destruct sb; simpl in *; try discriminate;
      contradiction.
Qed.

(** For comparable [a] and [b], a difference [b - a] that is not positive
    means [b <= a]. *)
Lemma sub_not_pos_leb t a b :
  (t <=? a)%float = true -> (t <=? b)%float = true ->
  (0 <? b - a)%float = false -> (b <=? a)%float = true.
Proof.
  rewrite ltb_spec, !leb_spec, sub_spec, Prim2SF_zero.
  intros Ha Hb Hsub. unfold SFleb in *.
  destruct (SFcompare (Prim2SF b) (Prim2SF a)) as [[]|] eqn:Hc;
    try reflexivity.
  - destruct (sub_sign _ _ (Prim2SF_valid b) (Prim2SF_valid a)) as [Hpos _].
    apply Hpos, zero_ltb_iff in Hc. congruence.
  - exfalso.
    destruct (Prim2SF t) as [st|st| |st mt et],
             (Prim2SF a) as [sa|sa| |sa ma ea],
             (Prim2SF b) as [sb|sb| |sb mb eb];
      simpl in *; try discriminate.
Qed.
End FloatOrder.
Set Implicit Arguments.

(** ** The k nearest entries *)

Section TopK.
Variable T : Type.
Implicit Types (c : SemanticCache T) (rs : list (SimilarityResult T)).
Implicit Types (r x y : SimilarityResult T).

Lemma sort_insert_descending th x rs :
  (th <=? similarity x)%float = true -> above th rs -> descending rs ->
  descending (sort_insert (@by_similarity_desc T) x rs).
Proof.
  intros Hx. induction rs as [|y rs IH]; intros Habove Hsorted.
  - repeat constructor.
  - inversion Habove as [|? ? Hy Habove']; subst.
    apply StronglySorted_inv in Hsorted as [Hsorted Hy_first].
    cbn [sort_insert]. unfold by_similarity_desc at 1.
    destruct (0 <? similarity y - similarity x)%float eqn:Hcmp.
    + constructor; [now apply IH|].
      apply (Permutation_Forall (Permutation_sym (sort_insert_perm _ x rs))).
      constructor; [|exact Hy_first].
      now apply FloatOrder.sub_pos_leb.
    + assert (Hyx : (similarity y <=? similarity x)%float = true)
        by exact (FloatOrder.sub_not_pos_leb th _ _ Hx Hy Hcmp).
      constructor; [now constructor|].
      constructor; [exact Hyx|].
      rewrite Forall_forall in *. intros z Hz.
      exact (FloatOrder.leb_trans _ _ _ (Hy_first z Hz) Hyx).
Qed.

Lemma sort_descending th rs :
  above th rs -> descending (sort (@by_similarity_desc T) rs).
Proof.
  induction rs as [|x rs IH]; intros Habove; [constructor|].
  inversion Habove as [|? ? Hx Habove']; subst.
  cbn [sort fold_right]. apply sort_insert_descending with (th := th).
  - exact Hx.
  - exact (Permutation_Forall (Permutation_sym (sort_perm _ rs)) Habove').
  - now apply IH.
Qed.

Lemma descending_firstn n rs : descending rs -> descending (firstn n rs).
Proof.
  revert n. induction rs as [|x rs IH]; intros [|n] Hsorted; simpl;
    try constructor.
  - apply IH. now apply StronglySorted_inv in Hsorted.
  - apply StronglySorted_inv in Hsorted as [_ Hx].
    rewrite Forall_forall in *. intros y Hy. apply Hx.
    now apply firstn_incl in Hy.
Qed.

(** In a descending list, what [firstn] keeps is not below what it drops. *)
Lemma descending_firstn_skipn n rs x y :
  descending rs -> In x (firstn n rs) -> In y (skipn n rs) ->
  (similarity y <=? similarity x)%float = true.
Proof.
  revert n. induction rs as [|z rs IH]; intros [|n] Hsorted Hx Hy; simpl in *;
    try contradiction.
  apply StronglySorted_inv in Hsorted as [Hsorted Hz].
  destruct Hx as [<-|Hx].
  - rewrite Forall_forall in Hz. apply Hz.
    rewrite <- (firstn_skipn n rs). apply in_or_app. now right.
  - now apply (IH n).
Qed.

Lemma slice0_positive (A : Type) kk (l : list A) :
  0 < kk -> slice0 kk l = firstn (Z.to_nat kk) l.
Proof.
  intros Hk. unfold slice0.
  replace (kk <? 0) with false by (symmetry; apply Z.ltb_ge; lia).
  destruct (Z.le_ge_cases kk (Z.of_nat (List.length l))) as [Hle|Hge].
  - now rewrite Z.min_l.
  - rewrite Z.min_r, Nat2Z.id by exact Hge.
    rewrite !firstn_all2; trivial; lia.
Qed.

Lemma cosineSimilarity_returns a b :
  vlength a = vlength b -> exists sim, cosineSimilarity a b = Returned sim.
Proof.
  intros Hlen. unfold cosineSimilarity.
  apply Z.eqb_eq in Hlen. rewrite Hlen. simpl.
  destruct (dot_loop a b _) as [[dotProduct magnitudeA] magnitudeB].
  destruct (_ =? _)%float; eexists; reflexivity.
Qed.

(** The loop returns when the query has the length of every live vector. *)
Lemma scan_returns q (es : list (CacheEntry T)) th now :
  (forall entry, In entry es -> is_expired now entry = false ->
     vlength (embedding entry) = vlength q) ->
  exists rs, scan q es th now = Returned rs.
Proof.
  induction es as [|entry es IH]; intros Hdim; simpl.
  - now exists [].
  - destruct IH as [rs Hrs]; [intros e He; apply Hdim; now right|].
    destruct (expiresAt entry <? now) eqn:Hexp; [now exists rs|].
    destruct (@cosineSimilarity_returns q (embedding entry)) as [sim Hsim].
    { symmetry. apply Hdim; [now left | exact Hexp]. }
    rewrite Hsim, Hrs. eexists. reflexivity.
Qed.

(** The loop pushes a result for every live entry that reaches the
    threshold. *)
Lemma scan_complete q (es : list (CacheEntry T)) th now rs entry sim :
  scan q es th now = Returned rs ->
  In entry es -> qualifies q th now entry sim ->
  In {| res_key := key entry; res_value := value entry; similarity := sim |}
    rs.
Proof.
  unfold qualifies, is_expired. revert rs.
  induction es as [|e es IH]; simpl; intros rs Hscan Hin (Hlive & Hsim & Hth);
    [contradiction|].
  destruct (expiresAt e <? now) eqn:Hexp.
  - destruct Hin as [->|Hin]; [congruence|]. now apply IH.
  - destruct (cosineSimilarity q (embedding e)) as [sim'|] eqn:Hsim';
      [|discriminate].
    destruct (scan q es th now) as [rs'|]; [|discriminate].
    injection Hscan as <-.
    destruct Hin as [->|Hin].
    + rewrite Hsim in Hsim'. injection Hsim' as <-. rewrite Hth. now left.
    + destruct (th <=? sim')%float; [right|]; now apply IH.
Qed.

Lemma scan_above q (es : list (CacheEntry T)) th now rs :
  scan q es th now = Returned rs -> above th rs.
Proof.
  intros Hscan. apply Forall_forall. intros r Hr.
  pose proof (@scan_In T q es th now rs r Hscan Hr)
    as [entry [_ [[_ [_ Hth]] _]]].
  exact Hth.
Qed.

Lemma skipn_In_length (A : Type) n (l : list A) (a : A) :
  In a (skipn n l) -> List.length (firstn n l) = n.
Proof.
  intros Hy. rewrite length_firstn.
  destruct (Nat.le_gt_cases (List.length l) n) as [Hle|Hgt]; [|lia].
  rewrite skipn_all2 in Hy by exact Hle. destruct Hy.
Qed.

(** What [findKNearest] returns for a positive [k]. *)
Lemma findKNearest_top_k q (m : JsMap.t (CacheEntry T)) kk th now rs :
  0 < kk ->
  findKNearest q m kk th now = Returned rs ->
  above th rs
  /\ Z.of_nat (List.length rs) <= kk
  /\ descending rs
  /\ forall entry sim,
       In entry (JsMap.values m) -> qualifies q th now entry sim ->
       In {| res_key := key entry; res_value := value entry;
             similarity := sim |} rs
       \/ (Z.of_nat (List.length rs) = kk
           /\ forall r, In r rs -> (sim <=? similarity r)%float = true).
Proof.
  intros Hk. unfold findKNearest.
  destruct (scan q (JsMap.values m) th now) as [found|] eqn:Hscan;
    [|discriminate].
  intros [= <-]. rewrite slice0_positive by exact Hk.
  set (sorted := sort (@by_similarity_desc T) found).
  assert (Habove : above th sorted).
  { exact (Permutation_Forall
             (Permutation_sym (sort_perm (@by_similarity_desc T) found))
             (@scan_above q _ th now found Hscan)). }
  assert (Hsorted : descending sorted).
  { exact (@sort_descending th found (@scan_above q _ th now found Hscan)). }
  split; [|split; [|split]].
  - unfold above in *. rewrite Forall_forall in *. intros r Hr.
    apply Habove. now apply firstn_incl in Hr.
  - pose proof (firstn_le_length (Z.to_nat kk) sorted). lia.
  - now apply descending_firstn.
  - intros entry sim Hentry Hq.
    pose proof (@scan_complete q _ th now found entry sim Hscan Hentry Hq)
      as Hin.
    apply (Permutation_in _
             (Permutation_sym (sort_perm (@by_similarity_desc T) found)))
      in Hin.
    fold sorted in Hin.
    rewrite <- (firstn_skipn (Z.to_nat kk) sorted) in Hin.
    apply in_app_or in Hin as [Hin|Hin]; [now left|right].
    split.
    + rewrite (@skipn_In_length _ _ _ _ Hin). lia.
    + intros r Hr.
      exact (@descending_firstn_skipn _ _ _ _ Hsorted Hr Hin).
Qed.

(** C3. For a query vector [q] and a result count [k > 0] (given, or the
    default 5), with [t] the effective threshold
    ([threshold ?? config.similarityThreshold]): [getSimilar] returns
    whenever [q] has the length of every live vector, and what it returns
    has at most [k] results, each built from a live entry of the store
    with its cosine similarity to [q], none with a similarity below [t],
    in descending order of similarity, and they are the nearest ones: a
    live entry that reaches [t] and is not returned is no more similar
    than any of the [k] results returned. The second half of C3 is the
    case [t = 0]. *)
Theorem getSimilar_top_k c query q k th now :
  0 < orElse k 5 ->
  query_vector c query = Returned q ->
  let t := orElse th (similarityThreshold (config c)) in
  ((forall entry, In entry (JsMap.values (entries c)) ->
      is_expired now entry = false ->
      vlength (embedding entry) = vlength q) ->
   exists rs, fst (getSimilar query k th now c) = Returned rs)
  /\ forall rs, fst (getSimilar query k th now c) = Returned rs ->
       (forall r, In r rs -> (t <=? similarity r)%float = true)
       /\ Z.of_nat (List.length rs) <= orElse k 5
       /\ (forall r, In r rs ->
             exists entry,
               In entry (JsMap.values (entries c))
               /\ is_expired now entry = false
               /\ cosineSimilarity q (embedding entry)
                  = Returned (similarity r)
               /\ res_key r = key entry /\ res_value r = value entry)
       /\ descending rs
       /\ forall entry sim,
            In entry (JsMap.values (entries c)) ->
            qualifies q t now entry sim ->
            In {| res_key := key entry; res_value := value entry;
                  similarity := sim |} rs
            \/ (Z.of_nat (List.length rs) = orElse k 5
                /\ forall r, In r rs ->
                     (sim <=? similarity r)%float = true).
Proof.
  intros Hk Hq t. split.
  - intros Hdim. unfold getSimilar. fold (query_vector c query).
    rewrite Hq. fold t. unfold findKNearest.
    destruct (@scan_returns q (JsMap.values (entries c)) t now Hdim)
      as [found ->].
    eexists. reflexivity.
  - intros rs Hret.
    apply getSimilar_Returned in Hret as [q' [Hq' Hfind]].
    rewrite Hq in Hq'. injection Hq' as <-. fold t in Hfind.
    destruct (@findKNearest_top_k q _ (orElse k 5) t now rs Hk Hfind)
      as (Habove & Hlen & Hsorted & Hnearest).
    split; [|split; [exact Hlen|split; [|split; assumption]]].
    + unfold above in Habove. now rewrite Forall_forall in Habove.
    + intros r Hr.
      pose proof (@findKNearest_In T q (entries c) (orElse k 5) t now rs r
                    Hfind Hr)
        as [entry [Hentry [[Hlive [Hsim _]] [Hkey Hval]]]].
      exists entry. tauto.
Qed.
End TopK.

(** [two] at time 5, query [[1]], [k = 1], threshold 0: both entries are
    live with similarity 1 and the first one is returned. *)
Lemma getSimilar_top_k_witness :
  (exists rs,
     fst (getSimilar (inr [1%float]) (Some 1) (Some 0%float) 5 Examples.two)
     = Returned rs)
  /\ forall rs,
       fst (getSimilar (inr [1%float]) (Some 1) (Some 0%float) 5 Examples.two)
       = Returned rs ->
       (forall r, In r rs -> (0 <=? similarity r)%float = true)
       /\ Z.of_nat (List.length rs) <= 1
       /\ descending rs.
Proof.
  destruct (@getSimilar_top_k string Examples.two (inr [1%float]) [1%float]
              (Some 1) (Some 0%float) 5) as [Hreturns Hresults].
  - simpl. lia.
  - reflexivity.
  - split.
    + apply Hreturns. intros entry Hin _.
      vm_compute in Hin. destruct Hin as [<-|[<-|[]]]; reflexivity.
    + intros rs Hrs. specialize (Hresults rs Hrs). cbn [orElse] in Hresults.
      tauto.
Defined.

(** A query along the first axis over [plane]: the entries come back in
    the order of their cosine similarity, 1, 1/sqrt 2 and 0, whatever
    their insertion order; the configured threshold 0.5 leaves ['y'] out. *)
Example ranked_scenario :
  fst (getSimilar (inr [1%float; 0%float]) (Some 5) (Some 0%float) 5
         Examples.plane)
  = Returned
      [ {| res_key := "x"; res_value := "vx"; similarity := 1%float |};
        {| res_key := "d"; res_value := "vd";
           similarity := 0.70710678118654746%float |};
        {| res_key := "y"; res_value := "vy"; similarity := 0%float |} ]
  /\ fst (getSimilar (inr [1%float; 0%float]) None None 5 Examples.plane)
     = Returned
         [ {| res_key := "x"; res_value := "vx"; similarity := 1%float |};
           {| res_key := "d"; res_value := "vd";
              similarity := 0.70710678118654746%float |} ]
  /\ fst (getSimilar (inr [1%float]) None None 5 Examples.plane)
     = Thrown VectorsDimension.
Proof. repeat split; reflexivity. Qed.

(** * Further properties of the cache *)

Section Reads.
Variable T : Type.
Implicit Types (c : SemanticCache T) (k : string) (v : T).

(** X6. [has(key)] answers [true] exactly when a [get(key)] at the same
    time counts as a hit, and [false] exactly when it counts as a miss;
    on a hit [get] returns the value stored under the key. Both calls
    leave the same store behind. *)
Theorem has_agrees_with_get c k now :
  (fst (has k now c) = true
   <-> c_hits (counters (snd (get k now c))) = c_hits (counters c) + 1)
  /\ (fst (has k now c) = false
      <-> c_misses (counters (snd (get k now c))) = c_misses (counters c) + 1)
  /\ (fst (has k now c) = true ->
      exists e, JsMap.get k (entries c) = Some e
                /\ fst (get k now c) = Some (value e))
  /\ entries (snd (has k now c)) = entries (snd (get k now c)).
Proof.
  unfold has, get. destruct (JsMap.get k (entries c)) as [e|]; simpl.
  - destruct (expiresAt e <? now); simpl.
    + repeat split; try discriminate; try reflexivity; intros; lia.
    + repeat split; try discriminate; try reflexivity; try (intros; lia).
      intros _. now exists e.
  - repeat split; try discriminate; try reflexivity; intros; lia.
Qed.

(** X7. A read that finds a live entry writes nothing to the store (so reads
    never change the order in which entries are evicted), and a read of
    [k] never changes what is stored under another key. *)
Theorem reads_touch_only_an_expired_key c k now :
  (forall v, fst (get k now c) = Some v ->
     entries (snd (get k now c)) = entries c)
  /\ (fst (has k now c) = true -> snd (has k now c) = c)
  /\ forall k', k' <> k ->
       JsMap.get k' (entries (snd (get k now c))) = JsMap.get k' (entries c)
       /\ JsMap.get k' (entries (snd (has k now c)))
          = JsMap.get k' (entries c).
Proof.
  unfold has, get. destruct (JsMap.get k (entries c)) as [e|]; simpl.
  - destruct (expiresAt e <? now); simpl.
    + split; [discriminate|]. split; [discriminate|].
      intros k' Hne. now rewrite JsMapFacts.get_delete_other.
    + repeat split; reflexivity.
  - repeat split; try reflexivity; discriminate.
Qed.

(** X8. [delete(key)] returns [true] exactly when the key is stored (expired or
    not); afterwards the key is absent for [get] and [has], every other key
    keeps its entry, and deleting a key that is not stored leaves the
    store as it was. *)
Theorem delete_result_and_effect c k now :
  fst (delete k c) = JsMap.has k (entries c)
  /\ fst (get k now (snd (delete k c))) = None
  /\ fst (has k now (snd (delete k c))) = false
  /\ (forall k', k' <> k ->
        JsMap.get k' (entries (snd (delete k c))) = JsMap.get k' (entries c))
  /\ (fst (delete k c) = false -> snd (delete k c) = c).
Proof.
  unfold delete. simpl. split; [reflexivity|].
  split; [unfold get; simpl; now rewrite JsMapFacts.get_delete_same|].
  split; [unfold has; simpl; now rewrite JsMapFacts.get_delete_same|].
  split; [intros k' Hne; now apply JsMapFacts.get_delete_other|].
  intros Hhas. unfold JsMap.has in Hhas.
  destruct (JsMap.get k (entries c)) eqn:G; [discriminate|].
  unfold with_entries.
  rewrite JsMapFacts.delete_absent by now apply JsMapFacts.get_None_keys.
  now destruct c.
Qed.

(** X9. After [clear()] the store is empty and the counters [hits],
    [misses] and [similarHits] are zero, every key is absent for [get] and
    [has], and a similarity search finds nothing, whatever the query
    vector. The configuration is kept. *)
Theorem clear_empties_and_resets c :
  entries (clear c) = []
  /\ counters (clear c)
     = {| c_hits := 0; c_misses := 0; c_similarHits := 0 |}
  /\ config (clear c) = config c
  /\ (forall k now,
        fst (get k now (clear c)) = None
        /\ fst (has k now (clear c)) = false)
  /\ forall q kk th now,
       fst (getSimilar (inr q) kk th now (clear c)) = Returned [].
Proof.
  split; [reflexivity|]. split; [reflexivity|]. split; [reflexivity|].
  split; [intros k now; split; reflexivity|].
  intros q kk th now. unfold getSimilar, findKNearest. simpl.
  unfold slice0. simpl. now rewrite firstn_nil.
Qed.
End Reads.

Section Writes.
Variable T : Type.
Implicit Types (c : SemanticCache T) (k : string) (v : T).

Lemma set_returns_inv k v emb now c :
  fst (set k v emb now c) = Returned tt ->
  exists vec,
    (match emb with
     | Some given => given = vec /\ vlength vec = embeddingDimension (config c)
     | None => embedFn (config c) k = Returned vec
     end)
    /\ snd (set k v emb now c)
       = let entry :=
           {| key := k; value := v; embedding := vec; timestamp := now;
              expiresAt := now + ttl (config c) |} in
         let c1 :=
           if (maxSize (config c) <=? JsMap.size (entries c))
              && negb (JsMap.has k (entries c))
           then evictOldest c else c in
         with_entries c1 (JsMap.set k entry (entries c1)).
Proof.
  unfold set. destruct emb as [given|].
  - destruct (vlength given =? embeddingDimension (config c)) eqn:Hlen; simpl;
      [|discriminate].
    intros _. exists given. apply Z.eqb_eq in Hlen. now repeat split.
  - destruct (embedFn (config c) k) as [vec|]; simpl; [|discriminate].
    intros _. now exists vec.
Qed.

(** X4. A second [set] on the same key wins: [get] returns the later value for
    as long as the later call's TTL runs, also past the expiry of the
    first, and the overwrite neither grows the store nor moves the key. *)
Theorem last_write_wins c k v1 v2 emb1 emb2 t0 t1 t :
  fst (set k v1 emb1 t0 c) = Returned tt ->
  fst (set k v2 emb2 t1 (snd (set k v1 emb1 t0 c))) = Returned tt ->
  t <= t1 + ttl (config c) ->
  let c1 := snd (set k v1 emb1 t0 c) in
  let c2 := snd (set k v2 emb2 t1 c1) in
  fst (get k t c2) = Some v2
  /\ size (stats c2) = size (stats c1)
  /\ JsMap.keys (entries c2) = JsMap.keys (entries c1).
Proof.
  intros H1 H2 Ht c1 c2.
  assert (Hhas : JsMap.has k (entries c1) = true).
  { destruct (@get_entry_after_set T k v1 emb1 t0 c H1) as [vec G].
    unfold JsMap.has. fold c1 in G. now rewrite G. }
  split.
  - apply get_after_set; [exact H2|]. unfold c1. now rewrite config_set.
  - destruct (@set_returns_inv k v2 emb2 t1 c1 H2) as [vec [_ Heq]].
    fold c2 in Heq. rewrite Heq. simpl.
    rewrite Hhas, andb_false_r. simpl.
    split; [now apply JsMapFacts.size_set_present
           | now apply JsMapFacts.keys_set_present].
Qed.

(** X3. Below [maxSize], a [set] of a new key that returns appends the key,
    grows the store ([entries.size]) by one and evicts nothing: every
    other key keeps its entry. *)
Theorem set_new_key_below_capacity c k v emb now :
  JsMap.size (entries c) < maxSize (config c) ->
  JsMap.has k (entries c) = false ->
  fst (set k v emb now c) = Returned tt ->
  JsMap.keys (entries (snd (set k v emb now c)))
  = (JsMap.keys (entries c) ++ [k])%list
  /\ JsMap.size (entries (snd (set k v emb now c)))
     = JsMap.size (entries c) + 1
  /\ forall k', k' <> k ->
       JsMap.get k' (entries (snd (set k v emb now c)))
       = JsMap.get k' (entries c).
Proof.
  intros Hroom Hhas Hret.
  destruct (@set_returns_inv k v emb now c Hret) as [vec [_ ->]].
  apply Z.leb_gt in Hroom. rewrite Hroom. simpl.
  split; [now apply JsMapFacts.keys_set_absent|].
  split; [now apply JsMapFacts.size_set_absent|].
  intros k' Hne. now apply JsMapFacts.get_set_other.
Qed.

(** X10. A call of [set] or [getSimilar] that throws leaves the cache exactly
    as it was, and a failure of the configured embedding function is what
    the caller gets: nothing is stored for the key. *)
Theorem failed_call_changes_nothing c :
  (forall k v emb now e,
     fst (set k v emb now c) = Thrown e -> snd (set k v emb now c) = c)
  /\ (forall query kk th now e,
        fst (getSimilar query kk th now c) = Thrown e ->
        snd (getSimilar query kk th now c) = c)
  /\ (forall k v now e,
        embedFn (config c) k = Thrown e -> set k v None now c = (Thrown e, c))
  /\ (forall text kk th now e,
        embedFn (config c) text = Thrown e ->
        getSimilar (inl text) kk th now c = (Thrown e, c)).
Proof.
  split; [|split; [|split]].
  - intros k v emb now e. unfold set.
    destruct (match emb with Some _ => _ | None => _ end); simpl;
      [discriminate | reflexivity].
  - intros query kk th now e. unfold getSimilar.
    fold (query_vector c query).
    destruct (query_vector c query); [|reflexivity].
    destruct (findKNearest _ _ _ _ _); simpl; [discriminate | reflexivity].
  - intros k v now e He. unfold set. now rewrite He.
  - intros text kk th now e He. unfold getSimilar. now rewrite He.
Qed.

(** X5. With a [ttl] that is a negative whole number of milliseconds an
    entry is expired as soon as it is stored: [get] at the time of the
    [set] or later returns [null], and [has] [false].
    (Whole numbers of this size add exactly in binary64; a fractional
    [ttl] is outside this statement.) *)
Theorem negative_ttl_expires_at_once c k v emb t0 t1 :
  ttl (config c) < 0 ->
  fst (set k v emb t0 c) = Returned tt ->
  t0 <= t1 ->
  fst (get k t1 (snd (set k v emb t0 c))) = None
  /\ fst (has k t1 (snd (set k v emb t0 c))) = false.
Proof.
  intros Httl Hret Ht.
  destruct (@get_entry_after_set T k v emb t0 c Hret) as [vec G].
  unfold get, has. rewrite G. simpl.
  replace (t0 + ttl (config c) <? t1) with true
    by (symmetry; apply Z.ltb_lt; lia).
  now split.
Qed.

(** X12. [getSimilar] adds the number of results it returns to [similarHits]
    (so nothing for an empty result) and changes nothing else: not the
    store, not the configuration, not [hits] or [misses]. *)
Theorem getSimilar_counts_results c query kk th now rs :
  fst (getSimilar query kk th now c) = Returned rs ->
  let c' := snd (getSimilar query kk th now c) in
  similarHits (stats c') = similarHits (stats c) + Z.of_nat (List.length rs)
  /\ hits (stats c') = hits (stats c)
  /\ misses (stats c') = misses (stats c)
  /\ entries c' = entries c
  /\ config c' = config c.
Proof.
  unfold getSimilar. fold (query_vector c query).
  destruct (query_vector c query); [|discriminate].
  destruct (findKNearest _ _ _ _ _) as [rs'|]; [|discriminate].
  simpl. intros [= <-]. repeat split; reflexivity.
Qed.
End Writes.

Section Capacity.
Variable T : Type.
Implicit Types (c : SemanticCache T) (k : string) (v : T).
Implicit Types (m : JsMap.t (CacheEntry T)).

Lemma size_delete_le k m : JsMap.size (JsMap.delete k m) <= JsMap.size m.
Proof.
  unfold JsMap.size, JsMap.delete.
  pose proof (filter_length_le (fun p => negb (String.eqb k (fst p))) m). lia.
Qed.

Lemma keys_delete_Forall (P : string -> Prop) k m :
  Forall P (JsMap.keys m) -> Forall P (JsMap.keys (JsMap.delete k m)).
Proof.
  rewrite !Forall_forall. intros H x Hx. apply H.
  now apply JsMapFacts.keys_delete_incl in Hx.
Qed.

Lemma keys_set_Forall (P : string -> Prop) k (e : CacheEntry T) m :
  P k -> Forall P (JsMap.keys m) -> Forall P (JsMap.keys (JsMap.set k e m)).
Proof.
  intros Hk Hm. destruct (JsMap.has k m) eqn:Hhas.
  - now rewrite JsMapFacts.keys_set_present.
  - rewrite JsMapFacts.keys_set_absent by exact Hhas.
    apply Forall_app. split; [exact Hm | now constructor].
Qed.

Lemma set_Thrown_unchanged k v emb now c e :
  fst (set k v emb now c) = Thrown e -> snd (set k v emb now c) = c.
Proof.
  unfold set.
  destruct (match emb with Some _ => _ | None => _ end); simpl;
    [discriminate | reflexivity].
Qed.

(** What the bound on the size rests on: one slot per key, no empty key,
    at most [maxSize] entries. *)
Lemma bounded_after op now c :
  1 <= maxSize (config c) ->
  sets_nonempty_key op ->
  wf_entries (entries c) ->
  Forall (fun k => k <> "") (JsMap.keys (entries c)) ->
  JsMap.size (entries c) <= maxSize (config c) ->
  Forall (fun k => k <> "") (JsMap.keys (entries (after op now c)))
  /\ JsMap.size (entries (after op now c)) <= maxSize (config c).
Proof.
  intros Hmax Hop Hwf Hkeys Hsize.
  destruct op as [k|k v emb|q kk th|k|k|]; simpl in *.
  - unfold get. destruct (JsMap.get k (entries c)) as [e|]; simpl; [|tauto].
    destruct (expiresAt e <? now); simpl; [|tauto].
    split; [now apply keys_delete_Forall|].
    pose proof (size_delete_le k (entries c)). lia.
  - destruct (fst (set k v emb now c)) as [[]|e] eqn:Hret.
    + destruct (@set_returns_inv T k v emb now c Hret) as [vec [_ ->]].
      cbv zeta.
      destruct (JsMap.has k (entries c)) eqn:Hhas.
      * rewrite andb_false_r. simpl.
        split; [now apply keys_set_Forall|].
        now rewrite JsMapFacts.size_set_present.
      * rewrite andb_true_r.
        destruct (maxSize (config c) <=? JsMap.size (entries c)) eqn:Hfull.
        -- apply Z.leb_le in Hfull.
           assert (Hne : entries c <> []).
           { intros Hnil. rewrite Hnil in Hfull. unfold JsMap.size in Hfull.
             simpl in Hfull. lia. }
           destruct (@evictOldest_oldest T c Hne) as (k0 & e0 & Hold & Hevict).
           destruct Hold as (before & behind & Heq & _).
           assert (Hin : In (k0, e0) (entries c)).
           { rewrite Heq. apply in_or_app. right. now left. }
           assert (Hk0 : k0 <> "").
           { rewrite Forall_forall in Hkeys. apply Hkeys.
             apply (in_map fst) in Hin. exact Hin. }
           apply String.eqb_neq in Hk0. rewrite Hk0 in Hevict.
           simpl. rewrite Hevict.
           destruct Hwf as [Hnd _].
           assert (Hhas0 : JsMap.has k0 (entries c) = true).
           { unfold JsMap.has.
             now rewrite (@JsMapFacts.In_get _ k0 e0 (entries c) Hnd Hin). }
           assert (Hhas' : JsMap.has k (JsMap.delete k0 (entries c)) = false).
           { unfold JsMap.has in *.
             destruct (JsMap.get k (entries c)) eqn:G; [discriminate|].
             destruct (String.eqb k k0) eqn:E.
             - apply String.eqb_eq in E. subst k0.
               now rewrite JsMapFacts.get_delete_same.
             - apply String.eqb_neq in E.
               now rewrite JsMapFacts.get_delete_other, G. }
           split; [apply keys_set_Forall; [exact Hop|]; now apply keys_delete_Forall|].
           rewrite JsMapFacts.size_set_absent by exact Hhas'.
           rewrite JsMapFacts.size_delete by assumption. lia.
        -- apply Z.leb_gt in Hfull. simpl.
           split; [now apply keys_set_Forall|].
           rewrite JsMapFacts.size_set_absent by exact Hhas. lia.
    + rewrite (@set_Thrown_unchanged k v emb now c e Hret). tauto.
  - rewrite getSimilar_entries. tauto.
  - unfold has. destruct (JsMap.get k (entries c)) as [e|]; simpl; [|tauto].
    destruct (expiresAt e <? now); simpl; [|tauto].
    split; [now apply keys_delete_Forall|].
    pose proof (size_delete_le k (entries c)). lia.
  - split; [now apply keys_delete_Forall|].
    pose proof (size_delete_le k (entries c)). lia.
  - split; [constructor|]. unfold JsMap.size. simpl. lia.
Qed.

Lemma bounded_run ops : forall c,
  1 <= maxSize (config c) ->
  Forall (fun p => sets_nonempty_key (fst p)) ops ->
  wf_entries (entries c) ->
  Forall (fun k => k <> "") (JsMap.keys (entries c)) ->
  JsMap.size (entries c) <= maxSize (config c) ->
  JsMap.size (entries (run ops c)) <= maxSize (config c).
Proof.
  induction ops as [|[op now] ops IH]; intros c Hmax Hops Hwf Hkeys Hsize;
    [exact Hsize|].
  inversion Hops as [|? ? Hop Hops']; subst. simpl in Hop.
  destruct (@bounded_after op now c Hmax Hop Hwf Hkeys Hsize) as [Hkeys' Hsize'].
  simpl. rewrite <- (config_after op now c).
  apply IH; rewrite ?config_after; try assumption.
  now apply wf_after.
Qed.

(** X1. With [maxSize] a whole number and at least 1, a cache whose keys
    are never the empty string never holds more than [maxSize] entries,
    whatever calls are made on it and whenever: [entries.size <= maxSize]
    after every run. *)
Theorem size_within_maxSize cfg ops :
  1 <= maxSize cfg ->
  Forall (fun p => sets_nonempty_key (fst p)) ops ->
  JsMap.size (entries (run ops (fresh T cfg))) <= maxSize cfg.
Proof.
  intros Hmax Hops.
  apply (@bounded_run ops (fresh T cfg)); simpl; try assumption.
  - split; constructor.
  - constructor.
  - unfold JsMap.size. simpl. lia.
Qed.


End Capacity.

(** * Further properties of the vector functions *)

Section VectorFacts.

Lemma SF64mul_comm x y : SF64mul x y = SF64mul y x.
Proof.
  unfold SF64mul.
  destruct x as [sx|sx| |sx mx ex], y as [sy|sy| |sy my ey]; simpl;
    rewrite ?(xorb_comm sx sy); try reflexivity.
  now rewrite (Pos.mul_comm mx my), (Z.add_comm ex ey).
Qed.

(** Binary64 multiplication is commutative. *)
Lemma float_mul_comm x y : (x * y)%float = (y * x)%float.
Proof. apply Prim2SF_inj. rewrite !mul_spec. apply SF64mul_comm. Qed.

Lemma dot_loop_swap a : forall b d ma mb,
  dot_loop b a (d, mb, ma)
  = let '(d', ma', mb') := dot_loop a b (d, ma, mb) in (d', mb', ma').
Proof.
  induction a as [|x a IH]; intros [|y b] d ma mb; simpl; try reflexivity.
  rewrite IH, (float_mul_comm y x). reflexivity.
Qed.

(** X18. [cosineSimilarity(a, b)] is [cosineSimilarity(b, a)], as a number or
    as the error, bit for bit. *)
Theorem cosineSimilarity_sym a b : cosineSimilarity a b = cosineSimilarity b a.
Proof.
  unfold cosineSimilarity. rewrite (Z.eqb_sym (vlength b) (vlength a)).
  destruct (vlength a =? vlength b); simpl; [|reflexivity].
  rewrite (dot_loop_swap a b).
  destruct (dot_loop a b (0%float, 0%float, 0%float)) as [[d ma] mb].
  now rewrite (float_mul_comm (sqrt mb) (sqrt ma)).
Qed.

(** What a result of [cosineSimilarity] says of the two lengths. *)
Lemma cosineSimilarity_inv a b :
  match cosineSimilarity a b with
  | Returned _ => vlength a = vlength b
  | Thrown e => e = VectorsDimension /\ vlength a <> vlength b
  end.
Proof.
  unfold cosineSimilarity.
  destruct (vlength a =? vlength b) eqn:Hlen; simpl.
  - apply Z.eqb_eq in Hlen.
    destruct (dot_loop a b _) as [[d ma] mb].
    now destruct (_ =? _)%float.
  - apply Z.eqb_neq in Hlen. now split.
Qed.

(** X19. [cosineSimilarity] throws exactly when the two vectors differ in
    length, then with 'Vectors must have the same dimension'; for vectors
    of one length it returns a number (possibly [NaN]), also for empty or
    all-zero vectors. *)
Theorem cosineSimilarity_throws_iff a b :
  (forall e, cosineSimilarity a b = Thrown e
             <-> e = VectorsDimension /\ vlength a <> vlength b)
  /\ (vlength a = vlength b <-> exists sim, cosineSimilarity a b = Returned sim).
Proof.
  pose proof (cosineSimilarity_inv a b) as Hinv.
  destruct (cosineSimilarity a b) as [sim|e'] eqn:Hcos.
  - split.
    + intros e. split; [discriminate | intros [_ Hne]; contradiction].
    + split; [intros _; now exists sim | intros _; exact Hinv].
  - destruct Hinv as [-> Hne]. split.
    + intros e. split; [intros [= <-]; now split | intros [-> _]; reflexivity].
    + split; [contradiction | intros [sim Hsim]; discriminate].
Qed.
End VectorFacts.

Section SearchErrors.
Variable T : Type.
Implicit Types (c : SemanticCache T).

Lemma scan_Thrown_iff q (es : list (CacheEntry T)) th now e :
  scan q es th now = Thrown e
  <-> e = VectorsDimension
      /\ exists entry,
           In entry es /\ is_expired now entry = false
           /\ vlength (embedding entry) <> vlength q.
Proof.
  unfold is_expired.
  induction es as [|entry es IH]; simpl.
  - split; [discriminate | intros [_ [x [[] _]]]].
  - destruct (expiresAt entry <? now) eqn:Hexp.
    + rewrite IH. split; intros [He [x Hx]]; (split; [exact He|]); exists x.
      * tauto.
      * destruct Hx as [[<-|Hin] [Hlive Hlen]]; [congruence | tauto].
    + pose proof (cosineSimilarity_inv q (embedding entry)) as Hinv.
      destruct (cosineSimilarity q (embedding entry)) as [sim|e'] eqn:Hcos.
      * destruct (scan q es th now) as [rs|e''] eqn:Hscan.
        -- split; [discriminate|].
           intros [He [x [[<-|Hin] [Hlive Hne]]]]; [congruence|].
           assert (Hth : Returned rs = Thrown e
                         :> outcome (list (SimilarityResult T)));
             [|discriminate].
           apply IH. split; [exact He|]. now exists x.
        -- split.
           ++ intros Heq. apply IH in Heq as [He [x Hx]].
              split; [exact He|]. exists x. tauto.
           ++ intros [He [x [[<-|Hin] [Hlive Hne]]]]; [congruence|].
              apply IH. split; [exact He|]. now exists x.
      * destruct Hinv as [-> Hne].
        split.
        -- intros [= <-]. split; [reflexivity|].
           exists entry. repeat split; [now left | exact Hexp | congruence].
        -- intros [-> _]. reflexivity.
Qed.

(** X13. [getSimilar] with a query vector throws exactly when some entry that
    is not expired holds a vector of another length than the query, and
    then with 'Vectors must have the same dimension'; expired entries of
    another length are passed over. *)
Theorem getSimilar_throws_iff q kk th now c e :
  fst (getSimilar (inr q) kk th now c) = Thrown e
  <-> e = VectorsDimension
      /\ exists entry,
           In entry (JsMap.values (entries c))
           /\ is_expired now entry = false
           /\ vlength (embedding entry) <> vlength q.
Proof.
  rewrite <- scan_Thrown_iff
    with (th := orElse th (similarityThreshold (config c))).
  unfold getSimilar, findKNearest. simpl.
  destruct (scan q (JsMap.values (entries c)) _ now) as [rs|e'];
    simpl; split; intros H; try discriminate; exact H.
Qed.

(** X14. Asking for fewer results gives a prefix of the longer answer: for
    [0 <= k1 <= k2], [getSimilar(query, k1)] is the first [k1] results of
    [getSimilar(query, k2)]. *)
Theorem getSimilar_prefix query k1 k2 th now c rs2 :
  0 <= k1 <= k2 ->
  fst (getSimilar query (Some k2) th now c) = Returned rs2 ->
  fst (getSimilar query (Some k1) th now c)
  = Returned (firstn (Z.to_nat k1) rs2).
Proof.
  intros [Hk1 Hk12]. unfold getSimilar. fold (query_vector c query).
  destruct (query_vector c query) as [q|]; [|discriminate].
  unfold findKNearest. cbn [orElse].
  destruct (scan q _ _ now) as [found|]; [|discriminate].
  simpl. intros [= <-]. f_equal. unfold slice0.
  replace (k1 <? 0) with false by (symmetry; apply Z.ltb_ge; lia).
  replace (k2 <? 0) with false by (symmetry; apply Z.ltb_ge; lia).
  rewrite firstn_firstn. f_equal. lia.
Qed.
End SearchErrors.

Section EmbeddingFacts.
Variable Math_sin : float -> float.
Variable toLowerCase : string -> string.

Lemma sum_squares_zero n :
  fold_left (fun sum val => (sum + val * val)%float) (repeat 0%float n)
    0%float
  = 0%float.
Proof. induction n as [|n IH]; simpl; [reflexivity | exact IH]. Qed.

(** X20. [normalize] keeps the length of its argument, and a vector of zeros,
    of any length, is returned as it is rather than divided by its zero
    magnitude. *)
Theorem normalize_length_and_zero v n :
  List.length (normalize v) = List.length v
  /\ normalize (repeat 0%float n) = repeat 0%float n.
Proof.
  split.
  - unfold normalize. destruct (_ =? _)%float; [reflexivity|apply length_map].
  - unfold normalize. now rewrite sum_squares_zero.
Qed.

(** X21. [defaultEmbedding(text, dimension)] returns exactly [dimension]
    numbers for every text when [dimension] is an array length
    ([0 <= dimension < 2^32]), also for [dimension = 0], and throws the
    RangeError of [new Array(dimension)] otherwise. *)
Theorem defaultEmbedding_dimension text dimension :
  (0 <= dimension < 2 ^ 32 ->
   exists vec,
     defaultEmbedding Math_sin toLowerCase text dimension = Returned vec
     /\ vlength vec = dimension)
  /\ (dimension < 0 \/ 2 ^ 32 <= dimension ->
      defaultEmbedding Math_sin toLowerCase text dimension
      = Thrown InvalidArrayLength).
Proof.
  unfold defaultEmbedding. split.
  - intros [Hlo Hhi].
    replace (dimension <? 0) with false by (symmetry; now apply Z.ltb_ge).
    replace (2 ^ 32 <=? dimension) with false
      by (symmetry; now apply Z.leb_gt).
    simpl. eexists. split; [reflexivity|].
    unfold vlength.
    rewrite normalize_length, embed_loop_length, repeat_length. lia.
  - intros [Hneg|Hbig].
    + apply Z.ltb_lt in Hneg. now rewrite Hneg.
    + apply Z.leb_le in Hbig. now rewrite Hbig, orb_true_r.
Qed.

(** X22. A text whose lower-case form is empty is embedded as the zero vector
    of the given dimension. *)
Theorem defaultEmbedding_empty_text text dimension :
  toLowerCase text = "" ->
  0 <= dimension < 2 ^ 32 ->
  defaultEmbedding Math_sin toLowerCase text dimension
  = Returned (repeat 0%float (Z.to_nat dimension)).
Proof.
  intros Hlower [Hlo Hhi]. unfold defaultEmbedding.
  replace (dimension <? 0) with false by (symmetry; now apply Z.ltb_ge).
  replace (2 ^ 32 <=? dimension) with false by (symmetry; now apply Z.leb_gt).
  rewrite Hlower. simpl. f_equal.
  unfold normalize. now rewrite sum_squares_zero.
Qed.

(** X23. In a cache that runs with the built-in embedding function of its
    constructor (no [embedFn] configured) and an [embeddingDimension] that
    is an array length, [set(key, value)] always returns and stores, under
    [key], [value] with a vector of exactly [embeddingDimension] numbers. *)
Theorem default_cache_set_stores_configured_dimension
    (T : Type) (cfg0 : option CacheConfig) (c : SemanticCache T) k v now :
  opt cfg0 cfg_embedFn = None ->
  config c = config (new_SemanticCache Math_sin toLowerCase T cfg0) ->
  0 <= embeddingDimension (config c) < 2 ^ 32 ->
  fst (set k v None now c) = Returned tt
  /\ exists e,
       JsMap.get k (entries (snd (set k v None now c))) = Some e
       /\ value e = v
       /\ vlength (embedding e) = embeddingDimension (config c).
Proof.
  intros Hnone Hcfg Hdim.
  assert (Hfn : embedFn (config c) k
                = defaultEmbedding Math_sin toLowerCase k
                    (embeddingDimension (config c))).
  { rewrite Hcfg. unfold new_SemanticCache.
    cbn [config embedFn embeddingDimension]. now rewrite Hnone. }
  assert (Hembed : exists vec,
             embedFn (config c) k = Returned vec
             /\ vlength vec = embeddingDimension (config c)).
  { rewrite Hfn.
    destruct (@defaultEmbedding_returns Math_sin toLowerCase k
                (embeddingDimension (config c)) Hdim) as [vec Hvec].
    exists vec. split; [exact Hvec|].
    exact (@defaultEmbedding_length Math_sin toLowerCase k _ vec Hvec). }
  destruct Hembed as [vec [Hvec Hlen]].
  unfold set. rewrite Hvec. simpl. split; [reflexivity|].
  eexists. split; [apply JsMapFacts.get_set_same|]. now split.
Qed.
End EmbeddingFacts.

(** * Properties of the storage backend *)

Section BackendFacts.
Variable V : Type.
Implicit Types (b : InMemoryBackend.t V) (k : string) (v : V).

(** X24. [set] then [get] gives the value back; [set] leaves every other key
    alone, replaces a stored key in its slot and appends a new key, so the
    size grows by one exactly for a new key. *)
Theorem backend_set_then_get b k v :
  InMemoryBackend.get k (InMemoryBackend.set k v b) = Some v
  /\ (forall k', k' <> k ->
        InMemoryBackend.get k' (InMemoryBackend.set k v b)
        = InMemoryBackend.get k' b)
  /\ InMemoryBackend.keys (InMemoryBackend.set k v b)
     = (if InMemoryBackend.has k b then InMemoryBackend.keys b
        else InMemoryBackend.keys b ++ [k])%list
  /\ InMemoryBackend.size (InMemoryBackend.set k v b)
     = if InMemoryBackend.has k b then InMemoryBackend.size b
       else InMemoryBackend.size b + 1.
Proof.
  unfold InMemoryBackend.get, InMemoryBackend.set, InMemoryBackend.has,
    InMemoryBackend.keys, InMemoryBackend.size.
  split; [apply JsMapFacts.get_set_same|].
  split; [intros k' Hne; now apply JsMapFacts.get_set_other|].
  destruct (JsMap.has k b) eqn:Hhas; split.
  - now apply JsMapFacts.keys_set_present.
  - now apply JsMapFacts.size_set_present.
  - now apply JsMapFacts.keys_set_absent.
  - now apply JsMapFacts.size_set_absent.
Qed.

(** X25. [delete] returns whether the key was stored; afterwards the key is
    gone, every other key is as before, and deleting a key that is not
    stored changes nothing. *)
Theorem backend_delete b k :
  fst (InMemoryBackend.delete k b) = InMemoryBackend.has k b
  /\ InMemoryBackend.get k (snd (InMemoryBackend.delete k b)) = None
  /\ InMemoryBackend.has k (snd (InMemoryBackend.delete k b)) = false
  /\ (forall k', k' <> k ->
        InMemoryBackend.get k' (snd (InMemoryBackend.delete k b))
        = InMemoryBackend.get k' b)
  /\ (InMemoryBackend.has k b = false ->
      snd (InMemoryBackend.delete k b) = b).
Proof.
  unfold InMemoryBackend.get, InMemoryBackend.delete, InMemoryBackend.has.
  simpl. split; [reflexivity|].
  split; [apply JsMapFacts.get_delete_same|].
  split; [unfold JsMap.has; now rewrite JsMapFacts.get_delete_same|].
  split; [intros k' Hne; now apply JsMapFacts.get_delete_other|].
  unfold JsMap.has. destruct (JsMap.get k b) eqn:G; [discriminate|].
  intros _. apply JsMapFacts.delete_absent.
  now apply JsMapFacts.get_None_keys.
Qed.

Lemma replay_snoc (ws : list (InMemoryBackend.write V)) w b :
  InMemoryBackend.replay (ws ++ [w]) b
  = InMemoryBackend.apply w (InMemoryBackend.replay ws b).
Proof. unfold InMemoryBackend.replay. now rewrite fold_left_app. Qed.

Lemma keys_values_entries (m : JsMap.t V) :
  m = combine (JsMap.keys m) (JsMap.values m).
Proof.
  unfold JsMap.keys, JsMap.values.
  induction m as [|[k v] m IH]; simpl; [reflexivity | now f_equal].
Qed.

(** X26. Whatever was written to a new backend: [keys()] yields no key twice,
    [has(k)] is true exactly for the keys it yields, [size()] is their
    number, [entries()] pairs [keys()] with [values()] in order, and a
    [delete] that returns [true] shrinks the size by exactly one. *)
Theorem backend_keys_are_distinct (ws : list (InMemoryBackend.write V)) :
  let b := InMemoryBackend.replay ws (InMemoryBackend.create V) in
  NoDup (InMemoryBackend.keys b)
  /\ (forall k, InMemoryBackend.has k b = true <-> In k (InMemoryBackend.keys b))
  /\ InMemoryBackend.size b = Z.of_nat (List.length (InMemoryBackend.keys b))
  /\ InMemoryBackend.entries b
     = combine (InMemoryBackend.keys b) (InMemoryBackend.values b)
  /\ forall k, fst (InMemoryBackend.delete k b) = true ->
       InMemoryBackend.size (snd (InMemoryBackend.delete k b))
       = InMemoryBackend.size b - 1.
Proof.
  intros b.
  assert (Hnd : NoDup (JsMap.keys b)).
  { unfold b. induction ws as [|w ws IH] using rev_ind; [constructor|].
    rewrite replay_snoc. destruct w as [k v|k|]; simpl.
    - now apply JsMapFacts.NoDup_set.
    - now apply JsMapFacts.NoDup_delete.
    - constructor. }
  unfold InMemoryBackend.keys, InMemoryBackend.has, InMemoryBackend.size,
    InMemoryBackend.entries, InMemoryBackend.values, InMemoryBackend.delete.
  split; [exact Hnd|]. split; [|split; [|split]].
  - intros k. unfold JsMap.has. split.
    + destruct (JsMap.get k b) as [v|] eqn:G; [|discriminate]. intros _.
      apply JsMapFacts.get_In in G. apply (in_map fst) in G. exact G.
    + intros Hin. destruct (JsMap.get k b) eqn:G; [reflexivity|].
      now apply JsMapFacts.get_None_keys in G.
  - unfold JsMap.size, JsMap.keys. now rewrite length_map.
  - apply keys_values_entries.
  - simpl. intros k Hhas. now apply JsMapFacts.size_delete.
Qed.
End BackendFacts.

(** * Results of a similarity search and the exact-match path *)

Section ResultFacts.
Variable T : Type.
Implicit Types (c : SemanticCache T).

Lemma scan_keys q (es : list (CacheEntry T)) th now rs :
  scan q es th now = Returned rs ->
  NoDup (map (@key T) es) ->
  NoDup (map (@res_key T) rs)
  /\ forall k, In k (map (@res_key T) rs) -> In k (map (@key T) es).
Proof.
  revert rs. induction es as [|entry es IH]; simpl; intros rs Hscan Hnd.
  - injection Hscan as <-. split; [constructor | tauto].
  - inversion Hnd as [|? ? Hnotin Hnd']; subst.
    destruct (expiresAt entry <? now).
    + destruct (IH _ Hscan Hnd') as [H1 H2]. split; [exact H1|].
      intros k Hk. right. now apply H2.
    + destruct (cosineSimilarity q (embedding entry)) as [sim|];
        [|discriminate].
      destruct (scan q es th now) as [rs'|]; [|discriminate].
      injection Hscan as <-.
      destruct (IH _ eq_refl Hnd') as [H1 H2].
      destruct (th <=? sim)%float; simpl.
      * split.
        -- constructor; [|exact H1]. intros Hin. apply Hnotin. now apply H2.
        -- intros k [<-|Hk]; [now left | right; now apply H2].
      * split; [exact H1|]. intros k Hk. right. now apply H2.
Qed.

Lemma wf_entry_keys (m : JsMap.t (CacheEntry T)) :
  wf_entries m -> map (@key T) (JsMap.values m) = JsMap.keys m.
Proof.
  intros [_ Hkeys]. unfold JsMap.values, JsMap.keys.
  induction m as [|[k e] m IH]; simpl; [reflexivity|].
  inversion Hkeys as [|? ? Hk Hkeys']; subst. simpl in Hk.
  now rewrite Hk, IH.
Qed.

(** X15. In a cache whose store has one slot per key (every reachable one), a
    similarity search returns no key twice. *)
Theorem getSimilar_keys_are_distinct c query kk th now rs :
  wf_entries (entries c) ->
  fst (getSimilar query kk th now c) = Returned rs ->
  NoDup (map (@res_key T) rs).
Proof.
  intros Hwf Hret.
  apply getSimilar_Returned in Hret as [q [_ Hfind]].
  unfold findKNearest in Hfind.
  destruct (scan q (JsMap.values (entries c)) _ now) as [found|] eqn:Hscan;
    [|discriminate].
  injection Hfind as <-.
  assert (Hnd : NoDup (map (@res_key T) found)).
  { apply (@scan_keys q _ _ now found Hscan).
    rewrite (wf_entry_keys Hwf). exact (proj1 Hwf). }
  assert (Hsorted : NoDup (map (@res_key T)
                             (sort (@by_similarity_desc T) found))).
  { apply (Permutation_NoDup
             (Permutation_map _
                (Permutation_sym (sort_perm (@by_similarity_desc T) found)))).
    exact Hnd. }
  unfold slice0.
  rewrite <- (firstn_skipn
                (Z.to_nat
                   (if orElse kk 5 <? 0
                    then Z.max
                           (Z.of_nat
                              (List.length (sort (@by_similarity_desc T) found))
                            + orElse kk 5) 0
                    else Z.min (orElse kk 5)
                           (Z.of_nat
                              (List.length
                                 (sort (@by_similarity_desc T) found)))))
                (sort (@by_similarity_desc T) found)) in Hsorted.
  rewrite map_app in Hsorted. now apply NoDup_app_remove_r in Hsorted.
Qed.

(** X16. The two lookup paths agree: for every result of a similarity search
    on a well-formed store, [get] of the result's key at the same time
    returns the result's value. *)
Theorem getSimilar_results_agree_with_get c query kk th now rs r :
  wf_entries (entries c) ->
  fst (getSimilar query kk th now c) = Returned rs ->
  In r rs ->
  fst (get (res_key r) now c) = Some (res_value r)
  /\ fst (has (res_key r) now c) = true.
Proof.
  intros Hwf Hret Hin.
  destruct (@getSimilar_result_entry T query kk th now c rs r Hwf Hret Hin)
    as [entry [Hget [Hlive Hval]]].
  unfold is_expired in Hlive.
  unfold get, has. rewrite Hget, Hlive, Hval. now split.
Qed.
End ResultFacts.

(** * Instances *)

(** ['a'] of [two] is overwritten at time 10 and again at time 150, after
    the first overwrite has expired; [get] at time 240 serves the last. *)
Lemma last_write_wins_witness :
  let c1 := snd (set "a" "x1" None 10 Examples.two) in
  let c2 := snd (set "a" "x2" None 150 c1) in
  fst (get "a" 240 c2) = Some "x2"
  /\ size (stats c2) = size (stats c1)
  /\ JsMap.keys (entries c2) = JsMap.keys (entries c1).
Proof.
  apply (@last_write_wins string Examples.two "a" "x1" "x2" None None
           10 150 240).
  - reflexivity.
  - reflexivity.
  - simpl. lia.
Defined.

(** [asked] holds one entry of three. *)
Lemma set_new_key_below_capacity_witness :
  JsMap.keys (entries (snd (set "r" "vr" None 2 Examples.asked)))
  = ["q"; "r"]
  /\ JsMap.size (entries (snd (set "r" "vr" None 2 Examples.asked)))
     = JsMap.size (entries Examples.asked) + 1
  /\ forall k', k' <> "r" ->
       JsMap.get k' (entries (snd (set "r" "vr" None 2 Examples.asked)))
       = JsMap.get k' (entries Examples.asked).
Proof.
  apply (@set_new_key_below_capacity string Examples.asked "r" "vr" None 2).
  - vm_compute. reflexivity.
  - reflexivity.
  - reflexivity.
Defined.

(** [two] is full; ['c'] is new. *)
Lemma set_new_key_when_full_witness :
  exists k0 e0,
    oldest_at (entries Examples.two) k0 e0
    /\ JsMap.keys (entries (snd (set "c" "vc" None 3 Examples.two)))
       = ((if String.eqb k0 "" then JsMap.keys (entries Examples.two)
           else JsMap.keys (JsMap.delete k0 (entries Examples.two)))
          ++ ["c"])%list
    /\ size (stats (snd (set "c" "vc" None 3 Examples.two)))
       = if String.eqb k0 "" then size (stats Examples.two) + 1
         else size (stats Examples.two).
Proof.
  apply (@set_new_key_when_full string Examples.two "c" "vc" None 3).
  - exact wf_two.
  - discriminate.
  - vm_compute. discriminate.
  - reflexivity.
  - reflexivity.
Defined.

Lemma getSimilar_counts_results_witness :
  let c' :=
    snd (getSimilar (inr [1%float]) (Some 5) (Some 0%float) 5 Examples.two) in
  similarHits (stats c') = similarHits (stats Examples.two) + 2
  /\ hits (stats c') = hits (stats Examples.two)
  /\ misses (stats c') = misses (stats Examples.two)
  /\ entries c' = entries Examples.two
  /\ config c' = config Examples.two.
Proof.
  apply (@getSimilar_counts_results string Examples.two (inr [1%float])
           (Some 5) (Some 0%float) 5
           [ {| res_key := "a"; res_value := "va"; similarity := 1%float |};
             {| res_key := "b"; res_value := "vb"; similarity := 1%float |} ]).
  reflexivity.
Defined.

(** [maxSize = 2] and the run [busy]: five keys are set, reads and a
    [clear] come in between. *)
Lemma size_within_maxSize_witness :
  JsMap.size (entries (run MoreExamples.busy (fresh string (Examples.cfg 2))))
  <= 2.
Proof.
  apply (@size_within_maxSize string (Examples.cfg 2) MoreExamples.busy).
  - simpl. lia.
  - repeat constructor; simpl; discriminate.
Defined.

Lemma getSimilar_prefix_witness :
  fst (getSimilar (inr [1%float; 0%float]) (Some 1) (Some 0%float) 5
         Examples.plane)
  = Returned
      [ {| res_key := "x"; res_value := "vx"; similarity := 1%float |} ].
Proof.
  apply (@getSimilar_prefix string (inr [1%float; 0%float]) 1 3
           (Some 0%float) 5 Examples.plane
           [ {| res_key := "x"; res_value := "vx"; similarity := 1%float |};
             {| res_key := "d"; res_value := "vd";
                similarity := 0.70710678118654746%float |};
             {| res_key := "y"; res_value := "vy"; similarity := 0%float |} ]).
  - lia.
  - reflexivity.
Defined.

Lemma defaultEmbedding_empty_text_witness :
  defaultEmbedding MoreExamples.sin_stand_in MoreExamples.lower_stand_in "" 3
  = Returned [0%float; 0%float; 0%float].
Proof.
  apply (@defaultEmbedding_empty_text MoreExamples.sin_stand_in
           MoreExamples.lower_stand_in "" 3).
  - reflexivity.
  - simpl. lia.
Defined.

Lemma default_cache_set_stores_configured_dimension_witness :
  fst (set "hello" "v" None 1 MoreExamples.by_default) = Returned tt
  /\ exists e,
       JsMap.get "hello"
         (entries (snd (set "hello" "v" None 1 MoreExamples.by_default)))
       = Some e
       /\ value e = "v"
       /\ vlength (embedding e) = 384.
Proof.
  apply (@default_cache_set_stores_configured_dimension
           MoreExamples.sin_stand_in MoreExamples.lower_stand_in
           string None MoreExamples.by_default "hello" "v" 1).
  - reflexivity.
  - reflexivity.
  - simpl. lia.
Defined.

Lemma getSimilar_keys_are_distinct_witness :
  NoDup
    (map (@res_key string)
       [ {| res_key := "a"; res_value := "va"; similarity := 1%float |};
         {| res_key := "b"; res_value := "vb"; similarity := 1%float |} ]).
Proof.
  apply (@getSimilar_keys_are_distinct string Examples.two (inr [1%float])
           (Some 5) (Some 0%float) 5).
  - exact wf_two.
  - reflexivity.
Defined.

Lemma getSimilar_results_agree_with_get_witness :
  fst (get "b" 5 Examples.two) = Some "vb"
  /\ fst (has "b" 5 Examples.two) = true.
Proof.
  apply (@getSimilar_results_agree_with_get string Examples.two
           (inr [1%float]) (Some 5) (Some 0%float) 5
           [ {| res_key := "a"; res_value := "va"; similarity := 1%float |};
             {| res_key := "b"; res_value := "vb"; similarity := 1%float |} ]
           {| res_key := "b"; res_value := "vb"; similarity := 1%float |}).
  - exact wf_two.
  - reflexivity.
  - simpl. tauto.
Defined.

(** The cache after two [set] calls keeps one slot per key. *)
Lemma reachable_wf_witness :
  wf_entries
    (entries (set_all [("a", "va", 1); ("b", "vb", 2)]
                (fresh string (Examples.cfg 2)))).
Proof.
  apply (@reachable_wf string (Examples.cfg 2)).
  apply reachable_set_all. constructor.
Defined.

Lemma negative_ttl_expires_at_once_witness :
  fst (get "a" 7 (snd (set "a" "va" None 7 MoreExamples.hasty))) = None
  /\ fst (has "a" 7 (snd (set "a" "va" None 7 MoreExamples.hasty))) = false.
Proof.
  apply (@negative_ttl_expires_at_once string MoreExamples.hasty "a" "va"
           None 7 7).
  - simpl. lia.
  - reflexivity.
  - lia.
Defined.

(** * The expiry test at its boundary *)

Section ExpiryBoundary.
Variable T : Type.
Implicit Types (c : SemanticCache T) (k : string).

(** C2 (amended). The expiry test is strict. An entry whose [expiresAt]
    is strictly less than the current time is absent for every read
    path: [get] returns [null], [has] returns [false], and no result of
    [getSimilar] carries its key. An entry whose [expiresAt] is greater
    than or equal to the current time, equality included, is live for
    every read path: [get] returns its value, [has] returns [true], and
    [getSimilar], for [k > 0] and whenever it returns, ranks it like any
    live entry: if its similarity to the query reaches the threshold, it
    is among the results unless [k] results at least as similar are. *)
Theorem expiry_test_is_strict c k e now :
  wf_entries (entries c) ->
  JsMap.get k (entries c) = Some e ->
  (expiresAt e < now ->
   fst (get k now c) = None
   /\ fst (has k now c) = false
   /\ forall query kk th rs,
        fst (getSimilar query kk th now c) = Returned rs ->
        forall r, In r rs -> res_key r <> k)
  /\ (now <= expiresAt e ->
      fst (get k now c) = Some (value e)
      /\ fst (has k now c) = true
      /\ forall query q kk th sim rs,
           0 < orElse kk 5 ->
           query_vector c query = Returned q ->
           cosineSimilarity q (embedding e) = Returned sim ->
           (orElse th (similarityThreshold (config c)) <=? sim)%float = true ->
           fst (getSimilar query kk th now c) = Returned rs ->
           In {| res_key := k; res_value := value e; similarity := sim |} rs
           \/ (Z.of_nat (List.length rs) = orElse kk 5
               /\ forall r, In r rs ->
                    (sim <=? similarity r)%float = true)).
Proof.
  intros Hwf Hget. split.
  - intros Hexp. apply Z.ltb_lt in Hexp. split; [|split].
    + unfold get. now rewrite Hget, Hexp.
    + unfold has. now rewrite Hget, Hexp.
    + now apply getSimilar_skips_expired with (e := e).
  - intros Hlive. apply Z.ltb_ge in Hlive. split; [|split].
    + unfold get. now rewrite Hget, Hlive.
    + unfold has. now rewrite Hget, Hlive.
    + intros query q kk th sim rs Hk Hq Hsim Hth Hret.
      apply getSimilar_Returned in Hret as [q' [Hq' Hfind]].
      rewrite Hq in Hq'. injection Hq' as <-.
      pose proof (JsMapFacts.get_In _ _ Hget) as Hin.
      assert (Hkey : key e = k).
      { destruct Hwf as [_ Hkeys]. rewrite Forall_forall in Hkeys.
        exact (Hkeys _ Hin). }
      assert (Hval : In e (JsMap.values (entries c))).
      { unfold JsMap.values. apply in_map_iff. now exists (k, e). }
      destruct (@findKNearest_top_k T q (entries c) (orElse kk 5)
                  (orElse th (similarityThreshold (config c))) now rs
                  Hk Hfind) as (_ & _ & _ & Hnearest).
      rewrite <- Hkey. apply Hnearest; [exact Hval|].
      unfold qualifies, is_expired. now repeat split.
Qed.
End ExpiryBoundary.

(** ['a'] of [two] expires at 101: absent at time 102, served at time
    101. *)
Lemma expiry_test_is_strict_witness :
  (fst (get "a" 102 Examples.two) = None
   /\ fst (has "a" 102 Examples.two) = false
   /\ forall query kk th rs,
        fst (getSimilar query kk th 102 Examples.two) = Returned rs ->
        forall r, In r rs -> res_key r <> "a")
  /\ (fst (get "a" 101 Examples.two) = Some "va"
      /\ fst (has "a" 101 Examples.two) = true
      /\ forall rs,
           fst (getSimilar (inr [1%float]) (Some 1) (Some 0%float) 101
                  Examples.two) = Returned rs ->
           In {| res_key := "a"; res_value := "va"; similarity := 1%float |} rs
           \/ (Z.of_nat (List.length rs) = 1
               /\ forall r, In r rs ->
                    (1 <=? similarity r)%float = true)).
Proof.
  split.
  - apply (proj1 (@expiry_test_is_strict string Examples.two "a"
                    Examples.entry_a 102 wf_two eq_refl)).
    simpl. lia.
  - destruct (proj2 (@expiry_test_is_strict string Examples.two "a"
                       Examples.entry_a 101 wf_two eq_refl))
      as (Hget & Hhas & Hsim).
    + simpl. lia.
    + split; [exact Hget|]. split; [exact Hhas|].
      intros rs Hrs.
      apply (Hsim (inr [1%float]) [1%float] (Some 1) (Some 0%float)
               1%float rs); try reflexivity; exact Hrs.
Defined.
